(** * Character n-gram language model: [normalize], [train_lm],
      [generate_letter], [generate_text]

    Shallow embedding of the notebook
    [Lyrics Generation/Lyrics_generation_using_an_n-gram_model.ipynb].

    Conventions of the embedding.
    - A Python [str] is a [string]; a one-character [str] obtained by
      iterating over a [str] is an [ascii].
    - A Python [int] is a [Z].
    - A Python [dict] (and its subclasses [Counter], [defaultdict]) keeps
      its keys in insertion order, and [Counter.most_common] breaks ties
      by that order; a dict is therefore an association list whose keys
      are pairwise distinct, new keys being appended at the end.
    - A Python [float] is the rational it stands for.  [normalize] and
      [train_lm] are embedded twice: with the exact quotient [cnt/total],
      kept in lowest terms, and, as [normalize_float] and
      [train_lm_float], with the quotient rounded to binary64 as Python
      stores it.  The arithmetic of [np.random.choice] is exact.
    - Exceptions are values of [exn]; a computation that may raise returns
      a [result].  [generate_letter] and [generate_text] also read the
      process-wide NumPy generator: they live in the monad [Py], a state
      monad over the number of uniform samples drawn so far, on top of
      [result]. *)

From Stdlib Require Import List String Ascii ZArith QArith Qabs Bool Lia.
From Stdlib Require Import Qround Qpower Lqa.
From Stdlib Require Import Permutation Sorted.
Import ListNotations.

Local Open Scope string_scope.
Local Open Scope Z_scope.

(** ** Exceptions and the error monad *)

Inductive exn : Type :=
| ZeroDivisionError
| ValueError
| KeyError
| IndexError
| OverflowError.

Inductive result (A : Type) : Type :=
| Ok (a : A)
| Raise (e : exn).

Arguments Ok {A} a.
Arguments Raise {A} e.

Definition rbind {A B : Type} (r : result A) (f : A -> result B) : result B :=
  match r with
  | Ok a => f a
  | Raise e => Raise e
  end.

Declare Scope result_scope.
Delimit Scope result_scope with result.
Notation "x <- c ;; k" := (rbind c (fun x => k))
  (at level 61, c at next level, right associativity) : result_scope.

(** A list comprehension [[f x for x in l]] whose body may raise: the
    elements are evaluated from left to right and the first exception
    aborts the comprehension. *)
Fixpoint comprehension {A B : Type} (f : A -> result B) (l : list A)
  : result (list B) :=
  match l with
  | [] => Ok []
  | x :: l' =>
      (y <- f x ;; ys <- comprehension f l' ;; Ok (y :: ys))%result
  end.

(** ** Insertion-ordered dictionaries *)

Module Dict.
Section Dict.
Context {K V : Type} (eqb : K -> K -> bool).

(** [d[k]], where [None] stands for a missing key. *)
Fixpoint get (d : list (K * V)) (k : K) : option V :=
  match d with
  | [] => None
  | (k', v) :: d' => if eqb k' k then Some v else get d' k
  end.

(** [k in d] *)
Definition contains (d : list (K * V)) (k : K) : bool :=
  match get d k with
  | Some _ => true
  | None => false
  end.

(** [d[k] = v]: an existing key keeps its position, a new key goes to
    the end. *)
Fixpoint set (d : list (K * V)) (k : K) (v : V) : list (K * V) :=
  match d with
  | [] => [(k, v)]
  | (k', v') :: d' =>
      if eqb k' k then (k', v) :: d' else (k', v') :: set d' k v
  end.

Definition keys (d : list (K * V)) : list K := map fst d.
Definition values (d : list (K * V)) : list V := map snd d.
Definition items (d : list (K * V)) : list (K * V) := d.
End Dict.
End Dict.

(** ** Strings *)

(** [sep.join(l)] *)
Fixpoint join (sep : string) (l : list string) : string :=
  match l with
  | [] => EmptyString
  | x :: l' =>
      match l' with
      | [] => x
      | _ :: _ => x ++ sep ++ join sep l'
      end
  end.

(** Iterating over a [str] yields its characters, each a [str] of length
    one. *)
Definition str (c : ascii) : string := String c EmptyString.
Definition chars (s : string) : list string :=
  map str (list_ascii_of_string s).

(** [s[1:]] *)
Definition slice_from_1 (s : string) : string :=
  match s with
  | EmptyString => EmptyString
  | String _ s' => s'
  end.

(** ** Counters *)

Definition Counter : Type := list (ascii * Z).

(** [counter[char]], which is 0 for a missing key ([Counter.__missing__]). *)
Definition counter_get (counter : Counter) (char : ascii) : Z :=
  match Dict.get Ascii.eqb counter char with
  | Some cnt => cnt
  | None => 0
  end.

(** [counter[char] += 1] *)
Definition counter_incr (counter : Counter) (char : ascii) : Counter :=
  Dict.set Ascii.eqb counter char (counter_get counter char + 1).

(** [sorted(items, key=itemgetter(1), reverse=True)]: Python's sort is
    stable, also under [reverse=True], so among items of equal count the
    original order is kept.  A stable sort is determined by this; it is
    written here as a stable insertion sort. *)
Fixpoint insert_desc (x : ascii * Z) (l : list (ascii * Z))
  : list (ascii * Z) :=
  match l with
  | [] => [x]
  | y :: l' =>
      if snd y <=? snd x then x :: y :: l' else y :: insert_desc x l'
  end.

Fixpoint sorted_desc (l : list (ascii * Z)) : list (ascii * Z) :=
  match l with
  | [] => []
  | x :: l' => insert_desc x (sorted_desc l')
  end.

(** [counter.most_common()] *)
Definition most_common (counter : Counter) : list (ascii * Z) :=
  sorted_desc (Dict.items counter).

(** [sum(l)] over ints *)
Definition sum (l : list Z) : Z := fold_left Z.add l 0.

(** [cnt / total] on ints: true division. *)
Definition truediv (cnt total : Z) : result Q :=
  if total =? 0 then Raise ZeroDivisionError
  else Ok (Qred (inject_Z cnt / inject_Z total)).

(** ** [normalize] *)

Definition Distribution : Type := list (ascii * Q).

Definition normalize (counter : Counter) : result Distribution :=
  let total := sum (Dict.values counter) in
  comprehension
    (fun '(char, cnt) => (f <- truediv cnt total ;; Ok (char, f))%result)
    (most_common counter).

(** ** [train_lm] *)

Definition RawModel : Type := list (string * Counter).
Definition Model : Type := list (string * Distribution).

(** [raw_lm[h]] on a [defaultdict(Counter)]: a missing key is first bound
    to a fresh empty counter. *)
Definition defaultdict_get (raw_lm : RawModel) (h : string)
  : RawModel * Counter :=
  match Dict.get String.eqb raw_lm h with
  | Some counter => (raw_lm, counter)
  | None => (Dict.set String.eqb raw_lm h [], [])
  end.

(** [raw_lm[h][char] += 1].  The counter found under [h] is updated in
    place, so it keeps its position in [raw_lm]. *)
Definition count_up (raw_lm : RawModel) (h : string) (char : ascii)
  : RawModel :=
  let '(raw_lm, counter) := defaultdict_get raw_lm h in
  Dict.set String.eqb raw_lm h (counter_incr counter char).

(** The update of [history] at the end of the loop bodies of [train_lm]
    and [generate_text]. *)
Definition slide (n : Z) (history : string) (char : ascii) : string :=
  if n =? 1 then str char else slice_from_1 history ++ str char.

(** One iteration of [for char in text]; the loop state is
    [(raw_lm, history)]. *)
Definition train_body (n : Z) (st : RawModel * string) (char : ascii)
  : RawModel * string :=
  let '(raw_lm, history) := st in
  let h := join EmptyString (chars history) in
  let raw_lm := count_up raw_lm h char in
  (raw_lm, slide n history char).

(** The state of [train_lm] when its loop ends. *)
Definition train_loop (text : string) (n : Z) : RawModel * string :=
  fold_left (train_body n) (list_ascii_of_string text) ([], "~").

(** [{history : normalize(counter) for history, counter in items}],
    built on top of [lm]. *)
Fixpoint dict_comprehension (items : list (string * Counter)) (lm : Model)
  : result Model :=
  match items with
  | [] => Ok lm
  | (history, counter) :: items' =>
      (d <- normalize counter ;;
       dict_comprehension items' (Dict.set String.eqb lm history d))%result
  end.

Definition train_lm (text : string) (n : Z) : result Model :=
  let raw_lm := fst (train_loop text n) in
  dict_comprehension (Dict.items raw_lm) [].

(** ** The process-wide random generator *)

(** The state of the generator is the number of uniform samples drawn so
    far; [random_sample k] is the [k]-th sample that NumPy's
    [random_sample()] hands out.  NumPy promises samples in [[0, 1)];
    theorems that need it assume it of the stream. *)
Definition rng : Type := nat.

Definition Py (A : Type) : Type := rng -> result (A * rng).

Definition ret {A : Type} (a : A) : Py A := fun s => Ok (a, s).

Definition raise {A : Type} (e : exn) : Py A := fun _ => Raise e.

Definition bind {A B : Type} (c : Py A) (f : A -> Py B) : Py B :=
  fun s =>
    match c s with
    | Ok (a, s') => f a s'
    | Raise e => Raise e
    end.

Declare Scope py_scope.
Delimit Scope py_scope with py.
Notation "x <- c ;; k" := (bind c (fun x => k))
  (at level 61, c at next level, right associativity) : py_scope.
Notation "' pat <- c ;; k" := (bind c (fun x => match x with pat => k end))
  (at level 61, pat pattern, c at next level, right associativity) : py_scope.

(** [for i in range(k): st = body(st)] *)
Fixpoint for_range {St : Type} (k : nat) (body : St -> Py St) (st : St)
  : Py St :=
  match k with
  | O => ret st
  | S k' => (st' <- body st ;; for_range k' body st')%py
  end.

(** [sum] over floats, here rationals. *)
Definition Qsum (l : list Q) : Q := fold_right Qplus 0%Q l.

(** [p.cumsum()] *)
Fixpoint cumsum_from (acc : Q) (p : list Q) : list Q :=
  match p with
  | [] => []
  | x :: p' => (acc + x)%Q :: cumsum_from (acc + x)%Q p'
  end.

Definition cumsum (p : list Q) : list Q := cumsum_from 0%Q p.

(** [cdf.searchsorted(u, side='right')] on a nondecreasing [cdf]: the
    number of entries that are [<= u]. *)
Definition searchsorted_right (cdf : list Q) (u : Q) : nat :=
  List.length (filter (fun x => Qle_bool x u) cdf).

(** The tolerance of [choice] on the sum of [p]:
    [sqrt(finfo(float64).eps)], that is [2^-26]. *)
Definition atol : Q := (1 # 67108864)%Q.

(** [unzip(pairs)], i.e. [tuple(zip( *pairs))], on a list of 2-tuples:
    the pair of the two columns, or the empty tuple (here [None]) when
    [pairs] is empty. *)
Definition unzip {A B : Type} (pairs : list (A * B))
  : option (list A * list B) :=
  match pairs with
  | [] => None
  | _ :: _ => Some (map fst pairs, map snd pairs)
  end.

(** [lm[history]] *)
Definition getitem (lm : Model) (history : string) : Py Distribution :=
  match Dict.get String.eqb lm history with
  | Some d => ret d
  | None => raise KeyError
  end.

Section Generation.

Variable random_sample : nat -> Q.

(** [np.random.choice(a, p=p)] for a tuple [a] of one-character strings
    and a tuple [p] of floats, after NumPy's [RandomState.choice]: the
    arguments are validated (each failure is a [ValueError]), then one
    uniform sample [u] is drawn and the element of [a] at the position
    where [u] falls in the normalised cumulative sums of [p] is
    returned.  Indexing [a] past its end would be an [IndexError]; a
    sample below 1 never gets there.  The sums and quotients are exact
    here, where NumPy rounds them to binary64: for a sample within
    rounding distance of a boundary of the cumulative sums, NumPy may
    return the neighbouring element. *)
Definition np_random_choice (a : list ascii) (p : list Q) : Py ascii :=
  fun s =>
    if (List.length a =? 0)%nat then Raise ValueError
    else if negb (List.length p =? List.length a)%nat then Raise ValueError
    else if existsb (fun x => negb (Qle_bool 0 x)) p then Raise ValueError
    else if negb (Qle_bool (Qabs (Qsum p - 1)) atol) then Raise ValueError
    else
      let cdf := cumsum p in
      let cdf := map (fun x => (x / last cdf 0)%Q) cdf in
      let u := random_sample s in
      let idx := searchsorted_right cdf u in
      match nth_error a idx with
      | Some x => Ok (x, S s)
      | None => Raise IndexError
      end.

Definition generate_letter (lm : Model) (history : string) : Py ascii :=
  if negb (Dict.contains String.eqb lm history) then ret "~"%char
  else
    (d <- getitem lm history ;;
     match unzip d with
     | None => raise ValueError   (* [letters, probs = ()] *)
     | Some (letters, probs) =>
         i <- np_random_choice letters probs ;;
         ret i
     end)%py.

(** One iteration of the loop of [generate_text]; the loop state is
    [(history, text)]. *)
Definition generate_body (lm : Model) (n : Z) (st : string * list ascii)
  : Py (string * list ascii) :=
  let '(history, text) := st in
  (c <- generate_letter lm history ;;
   let text := (text ++ [c])%list in
   ret (slide n history c, text))%py.

(** The state of [generate_text] after [k] iterations of its loop. *)
Definition generate_loop (lm : Model) (n : Z) (k : nat)
  : Py (string * list ascii) :=
  for_range k (generate_body lm n) ("~", []).

Definition generate_text (lm : Model) (n : Z) (nletters : Z) : Py string :=
  ('(_, text) <- generate_loop lm n (Z.to_nat nletters) ;;
   ret (join " " (map str text)))%py.

End Generation.

(** ** Vocabulary of the statements *)

(** What training observes: the pairs (context looked up, character
    recorded under it), in the order of the text, as the sliding window of
    [train_lm] produces them from the window [history]. *)
Fixpoint observations (n : Z) (history : string) (text : list ascii)
  : list (string * ascii) :=
  match text with
  | [] => []
  | char :: text' =>
      (join EmptyString (chars history), char)
        :: observations n (slide n history char) text'
  end.

(** The characters observed after context [h], in the order of the text. *)
Definition followers (h : string) (obs : list (string * ascii))
  : list ascii :=
  map snd (filter (fun o => String.eqb (fst o) h) obs).

(** The characters that follow [h] in [text] under the window of
    [train_lm text n]. *)
Definition after (text : string) (n : Z) (h : string) : list ascii :=
  followers h (observations n "~" (list_ascii_of_string text)).

(** Number of occurrences of [c] in [cs]. *)
Definition occurrences (c : ascii) (cs : list ascii) : nat :=
  count_occ ascii_dec cs c.

(** Position of the first occurrence of [c] in [cs] (the length of [cs]
    when there is none). *)
Fixpoint first_index (c : ascii) (cs : list ascii) : nat :=
  match cs with
  | [] => O
  | x :: cs' => if Ascii.eqb x c then O else S (first_index c cs')
  end.

(** The counter obtained by counting the characters of [cs] one by one. *)
Definition counter_of (cs : list ascii) : Counter :=
  fold_left counter_incr cs [].

(** The raw model obtained by recording the observations one by one. *)
Definition raw_of (obs : list (string * ascii)) : RawModel :=
  fold_left (fun raw o => count_up raw (fst o) (snd o)) obs [].

(** The order of a distribution: higher probability first, and among equal
    probabilities the character met first in [cs] first. *)
Definition precedes (cs : list ascii) (x y : ascii * Q) : Prop :=
  (snd y < snd x)%Q \/
  ((snd x == snd y)%Q /\ (first_index (fst x) cs < first_index (fst y) cs)%nat).

(** The order of [most_common] on the items of a counter whose keys are
    ranked by [rank]. *)
Definition precedes_count (rank : ascii -> nat) (x y : ascii * Z) : Prop :=
  snd y < snd x \/ (snd x = snd y /\ (rank (fst x) < rank (fst y))%nat).

(** The order of the keys of a counter ranked by [rank], on its items. *)
Definition ranked_before (rank : ascii -> nat) (x y : ascii * Z) : Prop :=
  (rank (fst x) < rank (fst y))%nat.

(** The number of characters of [cs], as a Python int. *)
Definition total_of (cs : list ascii) : Z := Z.of_nat (List.length cs).

(** The value [normalize] returns when it does not raise. *)
Definition frequencies (counter : Counter) : Distribution :=
  map (fun x => (fst x,
                 Qred (inject_Z (snd x) / inject_Z (sum (Dict.values counter)))))
      (most_common counter).

(** A distribution that [np.random.choice] accepts: not empty, no negative
    entry, and a sum within [atol] of 1. *)
Definition accepted (d : Distribution) : Prop :=
  d <> [] /\
  Forall (fun x => (0 <= snd x)%Q) d /\
  (Qabs (Qsum (map snd d) - 1) <= atol)%Q.

(** A model all of whose distributions are accepted. *)
Definition well_formed (lm : Model) : Prop :=
  forall h d, Dict.get String.eqb lm h = Some d -> accepted d.

(** The samples of the generator lie in [[0, 1)]. *)
Definition uniform (random_sample : nat -> Q) : Prop :=
  forall k, (0 <= random_sample k)%Q /\ (random_sample k < 1)%Q.

(** The characters a model can emit: the sentinel, or a character listed in
    one of its distributions. *)
Definition emittable (lm : Model) (c : ascii) : Prop :=
  c = "~"%char \/
  exists h d p, Dict.get String.eqb lm h = Some d /\ In (c, p) d.

(** ** [tokenize_without_stopwords] *)

(** [string.punctuation]: the 32 ASCII punctuation characters.  The second
    one is the double quote, code 34. *)
Definition punctuation : string :=
  String "!" (String (ascii_of_nat 34) "#$%&'()*+,-./:;<=>?@[\]^_`{|}~").

(** A match of [punc_regex], the character class made of the characters
    of [string.punctuation]. *)
Definition is_punctuation (c : ascii) : bool :=
  existsb (Ascii.eqb c) (list_ascii_of_string punctuation).

(** [punc_regex.sub('', s)] *)
Definition remove_punctuation (s : string) : string :=
  string_of_list_ascii
    (filter (fun c => negb (is_punctuation c)) (list_ascii_of_string s)).

Definition between (lo hi : nat) (c : ascii) : bool :=
  ((lo <=? nat_of_ascii c) && (nat_of_ascii c <=? hi))%nat.

(** [c.lower()] for a character below U+0100: the letters A-Z and the
    capital letters of Latin-1 (U+00C0-U+00DE but the multiplication sign
    U+00D7) move up by 32. *)
Definition lower_char (c : ascii) : ascii :=
  if between 65 90 c || between 192 214 c || between 216 222 c
  then ascii_of_nat (nat_of_ascii c + 32)
  else c.

(** [s.lower()] *)
Definition lower (s : string) : string :=
  string_of_list_ascii (map lower_char (list_ascii_of_string s)).

(** [c.isspace()] for a character below U+0100. *)
Definition is_space (c : ascii) : bool :=
  between 9 13 c || between 28 32 c
  || (nat_of_ascii c =? 133)%nat || (nat_of_ascii c =? 160)%nat.

(** [s.split()]: the maximal runs of characters that are not whitespace;
    [word] is the run being read. *)
Fixpoint split_from (word : list ascii) (s : list ascii) : list string :=
  match s with
  | [] =>
      match word with
      | [] => []
      | _ :: _ => [string_of_list_ascii word]
      end
  | c :: s' =>
      if is_space c then
        match word with
        | [] => split_from [] s'
        | _ :: _ => string_of_list_ascii word :: split_from [] s'
        end
      else split_from (word ++ [c])%list s'
  end.

Definition split (s : string) : list string :=
  split_from [] (list_ascii_of_string s).

Definition tokenize_without_stopwords (lyrics : string) : list string :=
  let tokenized := split (lower (remove_punctuation lyrics)) in
  tokenized.

(** ** Vocabulary of the further properties *)

(** The pairs (character, next character) of a text that starts after the
    sentinel. *)
Definition bigrams (text : list ascii) : list (ascii * ascii) :=
  combine ("~"%char :: text) text.

(** What [generate_letter] may return for [history]: the sentinel on a
    miss, a character listed under [history] on a hit. *)
Definition follows (lm : Model) (history : string) (c : ascii) : Prop :=
  match Dict.get String.eqb lm history with
  | None => c = "~"%char
  | Some d => In c (map fst d)
  end.

(** [out] is a walk in the model that starts from the context [history]:
    each character follows the one before it. *)
Fixpoint walk (lm : Model) (history : string) (out : list ascii) : Prop :=
  match out with
  | [] => True
  | c :: out' => follows lm history c /\ walk lm (str c) out'
  end.

(** A walk in a text: each character is one that the text has right after
    the previous one, or the sentinel when the text has nothing after the
    previous one. *)
Fixpoint walk_in (text : list ascii) (prev : ascii) (out : list ascii)
  : Prop :=
  match out with
  | [] => True
  | c :: out' =>
      (In (prev, c) (bigrams text)
       \/ (c = "~"%char /\ ~ In prev (map fst (bigrams text))))
      /\ walk_in text c out'
  end.

(** Equal counts of [l] are listed in the same order in [l']. *)
Definition same_order_of_ties (l l' : list (ascii * Z)) : Prop :=
  forall k, filter (fun x => snd x =? k) l' = filter (fun x => snd x =? k) l.

(** Nonincreasing probabilities. *)
Definition descending (d : Distribution) : Prop :=
  StronglySorted (fun x y => (snd y <= snd x)%Q) d.

(** ** Binary64 *)

(** The functions above keep the exact quotient [cnt/total].  What Python
    stores is that quotient rounded to binary64.  The definitions below
    are [normalize] and [train_lm] once more, with the division of
    Python: a binary64 number is the rational it stands for. *)

Definition pow2 (e : Z) : Q := (2 ^ e)%Q.

(** The integer nearest to [x], the even one of the two when [x] lies
    halfway. *)
Definition round_half_even (x : Q) : Z :=
  let f := Qfloor x in
  match (x - inject_Z f ?= 1 # 2)%Q with
  | Lt => f
  | Gt => f + 1
  | Eq => if Z.even f then f else f + 1
  end.

(** For [q > 0], the exponent [e] with [2^e <= q < 2^(e+1)]: the
    difference of the bit lengths of numerator and denominator, or one
    less. *)
Definition ilog2 (q : Q) : Z :=
  let e := Z.log2 (Qnum q) - Z.log2 (Z.pos (Qden q)) in
  if Qle_bool (pow2 e) q then e else e - 1.

(** For [a > 0], the nearest multiple of the spacing of binary64 at [a],
    ties to even: 53 significant bits from the exponent of [a] on, the
    spacing [2^-1074] of the subnormal numbers below [2^-1022]. *)
Definition round_positive (a : Q) : Q :=
  let e := Z.max (ilog2 a) (-1022) in
  let m := round_half_even (a * pow2 (52 - e)) in
  inject_Z m * pow2 (e - 52).

(** The binary64 number nearest to [q], ties to even.  [None] when the
    magnitude rounds to [2^1024] or more, which no binary64 number is. *)
Definition binary64 (q : Q) : option Q :=
  let q := Qred q in
  if Qeq_bool q 0 then Some 0%Q
  else
    let r := Qred (round_positive (Qabs q)) in
    if Qle_bool (pow2 1024) r then None
    else Some (if Qle_bool 0 q then r else Qred (- r)).

(** [cnt / total] on ints, as Python evaluates it: the exact quotient
    correctly rounded to binary64, [OverflowError] when it is too large
    for a float. *)
Definition truediv_float (cnt total : Z) : result Q :=
  if total =? 0 then Raise ZeroDivisionError
  else
    match binary64 (inject_Z cnt / inject_Z total) with
    | Some f => Ok f
    | None => Raise OverflowError
    end.

Definition normalize_float (counter : Counter) : result Distribution :=
  let total := sum (Dict.values counter) in
  comprehension
    (fun '(char, cnt) =>
       (f <- truediv_float cnt total ;; Ok (char, f))%result)
    (most_common counter).

Fixpoint dict_comprehension_float (items : list (string * Counter))
         (lm : Model) : result Model :=
  match items with
  | [] => Ok lm
  | (history, counter) :: items' =>
      (d <- normalize_float counter ;;
       dict_comprehension_float items'
         (Dict.set String.eqb lm history d))%result
  end.

Definition train_lm_float (text : string) (n : Z) : result Model :=
  let raw_lm := fst (train_loop text n) in
  dict_comprehension_float (Dict.items raw_lm) [].

(** The binary64 number nearest to a quotient that is not too large. *)
Definition nearest (q : Q) : Q :=
  match binary64 q with
  | Some f => f
  | None => 0%Q
  end.

(** A distribution of exact quotients, as stored. *)
Definition rounded (d : Distribution) : Distribution :=
  map (fun x => (fst x, nearest (snd x))) d.

(** * Facts *)

(** ** Dictionaries *)

Module DictFacts.
Section Facts.
Context {K V : Type} (eqb : K -> K -> bool).
Hypothesis eqb_spec : forall x y, reflect (x = y) (eqb x y).

Lemma get_set_same (d : list (K * V)) k v :
  Dict.get eqb (Dict.set eqb d k v) k = Some v.
Proof.
  induction d as [|[k' v'] d IH]; simpl.
  - destruct (eqb_spec k k); congruence.
  - destruct (eqb_spec k' k) as [->|Hne]; simpl.
    + destruct (eqb_spec k k); congruence.
    + destruct (eqb_spec k' k); congruence.
Qed.

Lemma get_set_other (d : list (K * V)) k k' v :
  k <> k' -> Dict.get eqb (Dict.set eqb d k v) k' = Dict.get eqb d k'.
Proof.
  intros Hne. induction d as [|[k0 v0] d IH]; simpl.
  - destruct (eqb_spec k k'); congruence.
  - destruct (eqb_spec k0 k) as [->|Hne0]; simpl.
    + destruct (eqb_spec k k'); congruence.
    + now rewrite IH.
Qed.

Lemma get_None (d : list (K * V)) k :
  Dict.get eqb d k = None <-> ~ In k (Dict.keys d).
Proof.
  induction d as [|[k' v'] d IH]; simpl.
  - tauto.
  - destruct (eqb_spec k' k) as [->|Hne].
    + split; [discriminate | tauto].
    + rewrite IH. tauto.
Qed.

Lemma get_Some_key (d : list (K * V)) k v :
  Dict.get eqb d k = Some v -> In k (Dict.keys d).
Proof.
  intros H. destruct (in_dec (fun x y => reflect_dec _ _ (eqb_spec x y))
                        k (Dict.keys d)) as [Hin|Hnin]; [assumption|].
  apply get_None in Hnin. congruence.
Qed.

Lemma get_In (d : list (K * V)) k v :
  Dict.get eqb d k = Some v -> In (k, v) d.
Proof.
  induction d as [|[k' v'] d IH]; simpl; [discriminate|].
  destruct (eqb_spec k' k) as [->|Hne].
  - intros [= ->]. now left.
  - intros H. right. now apply IH.
Qed.

Lemma In_get (d : list (K * V)) k v :
  NoDup (Dict.keys d) -> In (k, v) d -> Dict.get eqb d k = Some v.
Proof.
  induction d as [|[k' v'] d IH]; simpl; [tauto|].
  intros Hnd [[= -> ->]|Hin].
  - destruct (eqb_spec k k); congruence.
  - inversion Hnd as [|? ? Hnin Hnd']; subst.
    destruct (eqb_spec k' k) as [->|Hne].
    + exfalso. apply Hnin. change (In (fst (k, v)) (map fst d)).
      now apply in_map.
    + now apply IH.
Qed.

Lemma set_present (d : list (K * V)) k v v0 :
  Dict.get eqb d k = Some v0 ->
  Dict.keys (Dict.set eqb d k v) = Dict.keys d.
Proof.
  induction d as [|[k' v'] d IH]; simpl; [discriminate|].
  destruct (eqb_spec k' k) as [->|Hne]; simpl; [reflexivity|].
  intros H. f_equal. now apply IH.
Qed.

Lemma set_absent (d : list (K * V)) k v :
  Dict.get eqb d k = None -> Dict.set eqb d k v = (d ++ [(k, v)])%list.
Proof.
  induction d as [|[k' v'] d IH]; simpl; [reflexivity|].
  destruct (eqb_spec k' k) as [->|Hne]; [discriminate|].
  intros H. f_equal. now apply IH.
Qed.

Lemma NoDup_snoc {A : Type} (l : list A) (x : A) :
  NoDup l -> ~ In x l -> NoDup (l ++ [x])%list.
Proof.
  intros Hnd Hnin. induction Hnd as [|y l Hy Hnd IH]; simpl.
  - constructor; [tauto | constructor].
  - constructor.
    + rewrite in_app_iff. simpl. intros [H|[H|[]]]; [tauto|].
      subst. apply Hnin. now left.
    + apply IH. intros H. apply Hnin. now right.
Qed.

Lemma NoDup_set (d : list (K * V)) k v :
  NoDup (Dict.keys d) -> NoDup (Dict.keys (Dict.set eqb d k v)).
Proof.
  intros Hnd. destruct (Dict.get eqb d k) as [v0|] eqn:Hg.
  - now rewrite (set_present _ _ _ _ Hg).
  - rewrite (set_absent _ _ _ Hg). unfold Dict.keys.
    rewrite map_app. simpl. apply NoDup_snoc; [assumption|].
    now apply get_None.
Qed.

Lemma In_set_value (d : list (K * V)) k v k' v' :
  In (k', v') (Dict.set eqb d k v) -> k' <> k -> In (k', v') d.
Proof.
  induction d as [|[k0 v0] d IH]; simpl.
  - intros [[= <- <-]|[]] Hne. congruence.
  - destruct (eqb_spec k0 k) as [->|Hne0]; simpl.
    + intros [[= <- <-]|Hin] Hne; [congruence | now right].
    + intros [Heq|Hin] Hne; [now left | right; now apply IH].
Qed.

Lemma get_map {W : Type} (g : V -> W) (d : list (K * V)) k :
  Dict.get eqb (map (fun x => (fst x, g (snd x))) d) k
  = option_map g (Dict.get eqb d k).
Proof.
  induction d as [|[k' v'] d IH]; simpl; [reflexivity|].
  now destruct (eqb_spec k' k).
Qed.

Lemma keys_map {W : Type} (g : V -> W) (d : list (K * V)) :
  Dict.keys (map (fun x => (fst x, g (snd x))) d) = Dict.keys d.
Proof.
  unfold Dict.keys. rewrite map_map. reflexivity.
Qed.
End Facts.
End DictFacts.

(** ** Lists *)

Lemma StronglySorted_snoc {A : Type} (R : A -> A -> Prop) (l : list A) x :
  StronglySorted R l -> Forall (fun y => R y x) l ->
  StronglySorted R (l ++ [x])%list.
Proof.
  induction 1 as [|y l Hs IH Hy]; simpl; intros Hall.
  - constructor; constructor.
  - inversion Hall; subst. constructor.
    + now apply IH.
    + apply Forall_app. split; [assumption | now constructor].
Qed.

Lemma StronglySorted_weaken {A : Type} (R R' : A -> A -> Prop) (l : list A) :
  (forall x y, In x l -> In y l -> R x y -> R' x y) ->
  StronglySorted R l -> StronglySorted R' l.
Proof.
  intros Himp Hs. induction Hs as [|x l Hs IH Hx].
  - constructor.
  - constructor.
    + apply IH. intros a b Ha Hb. apply Himp; now right.
    + rewrite Forall_forall in *. intros y Hy.
      apply Himp; [now left | now right | now apply Hx].
Qed.

Lemma StronglySorted_map {A B : Type} (f : A -> B) (R : B -> B -> Prop)
      (l : list A) :
  StronglySorted R (map f l) <-> StronglySorted (fun x y => R (f x) (f y)) l.
Proof.
  induction l as [|x l IH]; simpl.
  - split; constructor.
  - split; intros H; inversion H; subst; constructor;
      try (now apply IH); rewrite Forall_forall in *.
    + intros y Hy. match goal with Hf : forall _, In _ (map f l) -> _ |- _ =>
        apply Hf end. now apply in_map.
    + intros y Hy. apply in_map_iff in Hy as (z & <- & Hz). auto.
Qed.

Lemma sum_from (l : list Z) (a : Z) : fold_left Z.add l a = a + sum l.
Proof.
  unfold sum. revert a. induction l as [|x l IH]; intros a; simpl.
  - lia.
  - rewrite IH, (IH x). lia.
Qed.

Lemma sum_cons (x : Z) (l : list Z) : sum (x :: l) = x + sum l.
Proof. unfold sum at 1. simpl. apply sum_from. Qed.

Lemma sum_app (l1 l2 : list Z) : sum (l1 ++ l2)%list = sum l1 + sum l2.
Proof.
  induction l1 as [|x l1 IH]; simpl; [reflexivity|].
  rewrite !sum_cons, IH. lia.
Qed.

Lemma sum_Permutation (l1 l2 : list Z) :
  Permutation l1 l2 -> sum l1 = sum l2.
Proof.
  induction 1; rewrite ?sum_cons in *; lia.
Qed.

(** ** First occurrences *)

Lemma first_index_lt (c : ascii) (cs : list ascii) :
  In c cs -> (first_index c cs < List.length cs)%nat.
Proof.
  induction cs as [|x cs IH]; simpl; [tauto|].
  destruct (Ascii.eqb_spec x c) as [->|Hne]; [lia|].
  intros [H|H]; [congruence|]. apply IH in H. lia.
Qed.

Lemma first_index_absent (c : ascii) (cs : list ascii) :
  ~ In c cs -> first_index c cs = List.length cs.
Proof.
  induction cs as [|x cs IH]; simpl; [reflexivity|].
  destruct (Ascii.eqb_spec x c) as [->|Hne]; [tauto|].
  intros H. f_equal. apply IH. tauto.
Qed.

Lemma first_index_app_present (c : ascii) (cs cs' : list ascii) :
  In c cs -> first_index c (cs ++ cs')%list = first_index c cs.
Proof.
  induction cs as [|x cs IH]; simpl; [tauto|].
  destruct (Ascii.eqb_spec x c) as [->|Hne]; [reflexivity|].
  intros [H|H]; [congruence|]. f_equal. now apply IH.
Qed.

Lemma first_index_app_absent (c : ascii) (cs cs' : list ascii) :
  ~ In c cs ->
  first_index c (cs ++ cs')%list = (List.length cs + first_index c cs')%nat.
Proof.
  induction cs as [|x cs IH]; simpl; [reflexivity|].
  destruct (Ascii.eqb_spec x c) as [->|Hne]; [tauto|].
  intros H. f_equal. apply IH. tauto.
Qed.

(** ** Counters *)

Lemma counter_of_snoc (cs : list ascii) (c : ascii) :
  counter_of (cs ++ [c])%list = counter_incr (counter_of cs) c.
Proof. unfold counter_of. now rewrite fold_left_app. Qed.

Lemma occurrences_snoc (c x : ascii) (cs : list ascii) :
  occurrences c (cs ++ [x])%list
  = (occurrences c cs + if Ascii.eqb x c then 1 else 0)%nat.
Proof.
  unfold occurrences. rewrite count_occ_app. simpl.
  destruct (Ascii.eqb_spec x c), (ascii_dec x c); congruence.
Qed.

Lemma occurrences_pos (c : ascii) (cs : list ascii) :
  In c cs <-> (0 < occurrences c cs)%nat.
Proof. unfold occurrences. apply count_occ_In. Qed.

(** The entry of [c] in the counter of [cs]: absent when [c] does not occur
    in [cs], its number of occurrences otherwise. *)
Lemma get_counter_of (cs : list ascii) (c : ascii) :
  Dict.get Ascii.eqb (counter_of cs) c =
  match occurrences c cs with
  | O => None
  | S k => Some (Z.of_nat (S k))
  end.
Proof.
  induction cs as [|x cs IH] using rev_ind; [reflexivity|].
  rewrite counter_of_snoc, occurrences_snoc. unfold counter_incr.
  destruct (Ascii.eqb_spec x c) as [->|Hne].
  - rewrite (DictFacts.get_set_same _ Ascii.eqb_spec).
    unfold counter_get. rewrite IH.
    destruct (occurrences c cs); simpl; f_equal; lia.
  - rewrite (DictFacts.get_set_other _ Ascii.eqb_spec) by assumption.
    rewrite IH, Nat.add_0_r. reflexivity.
Qed.

Lemma keys_counter_of (cs : list ascii) (c : ascii) :
  In c (Dict.keys (counter_of cs)) <-> In c cs.
Proof.
  rewrite (occurrences_pos c cs). pose proof (get_counter_of cs c) as Hg.
  split; intros H.
  - destruct (occurrences c cs); [|lia].
    apply (DictFacts.get_None _ Ascii.eqb_spec) in Hg. tauto.
  - destruct (occurrences c cs); [lia|].
    now apply (DictFacts.get_Some_key _ Ascii.eqb_spec) in Hg.
Qed.

Lemma NoDup_counter_of (cs : list ascii) :
  NoDup (Dict.keys (counter_of cs)).
Proof.
  induction cs as [|x cs IH] using rev_ind; [constructor|].
  rewrite counter_of_snoc. now apply (DictFacts.NoDup_set _ Ascii.eqb_spec).
Qed.

Lemma In_counter_of (cs : list ascii) (c : ascii) (k : Z) :
  In (c, k) (counter_of cs) ->
  k = Z.of_nat (occurrences c cs) /\ In c cs.
Proof.
  intros Hin.
  apply (DictFacts.In_get _ Ascii.eqb_spec) in Hin;
    [|apply NoDup_counter_of].
  rewrite get_counter_of in Hin. rewrite (occurrences_pos c cs).
  destruct (occurrences c cs); [discriminate|].
  injection Hin as <-. split; [reflexivity | lia].
Qed.

Lemma sum_values_set (d : Counter) (c : ascii) (v : Z) :
  sum (Dict.values (Dict.set Ascii.eqb d c v))
  = sum (Dict.values d) - counter_get d c + v.
Proof.
  unfold counter_get, Dict.values.
  induction d as [|[c' k] d IH]; simpl.
  - rewrite sum_cons. unfold sum. simpl. lia.
  - destruct (Ascii.eqb_spec c' c) as [->|Hne]; simpl; rewrite !sum_cons.
    + lia.
    + rewrite IH. lia.
Qed.

Lemma sum_values_incr (d : Counter) (c : ascii) :
  sum (Dict.values (counter_incr d c)) = sum (Dict.values d) + 1.
Proof. unfold counter_incr. rewrite sum_values_set. lia. Qed.

(** The counts of a counter add up to the number of characters counted. *)
Lemma sum_values_counter_of (cs : list ascii) :
  sum (Dict.values (counter_of cs)) = Z.of_nat (List.length cs).
Proof.
  induction cs as [|x cs IH] using rev_ind; [reflexivity|].
  rewrite counter_of_snoc, sum_values_incr, IH, length_app. simpl. lia.
Qed.

(** The keys of a counter are listed in the order in which the characters
    were first met. *)
Lemma keys_counter_of_order (cs : list ascii) :
  StronglySorted (fun a b => (first_index a cs < first_index b cs)%nat)
                 (Dict.keys (counter_of cs)).
Proof.
  induction cs as [|x cs IH] using rev_ind; [constructor|].
  rewrite counter_of_snoc. unfold counter_incr.
  destruct (Dict.get Ascii.eqb (counter_of cs) x) as [k|] eqn:Hg.
  - rewrite (DictFacts.set_present _ Ascii.eqb_spec _ _ _ _ Hg).
    eapply StronglySorted_weaken; [|exact IH].
    intros a b Ha Hb. rewrite keys_counter_of in Ha, Hb.
    now rewrite !first_index_app_present.
  - rewrite (DictFacts.set_absent _ Ascii.eqb_spec _ _ _ Hg).
    unfold Dict.keys. rewrite map_app. simpl.
    apply (DictFacts.get_None _ Ascii.eqb_spec) in Hg.
    rewrite keys_counter_of in Hg.
    apply StronglySorted_snoc.
    + eapply StronglySorted_weaken; [|exact IH].
      intros a b Ha Hb. fold (Dict.keys (counter_of cs)) in Ha, Hb.
      rewrite keys_counter_of in Ha, Hb.
      now rewrite !first_index_app_present.
    + rewrite Forall_forall. intros a Ha.
      fold (Dict.keys (counter_of cs)) in Ha. rewrite keys_counter_of in Ha.
      rewrite first_index_app_present by assumption.
      rewrite first_index_app_absent by assumption.
      apply first_index_lt in Ha. lia.
Qed.

(** ** [most_common] *)

Lemma insert_desc_Permutation (x : ascii * Z) (l : list (ascii * Z)) :
  Permutation (insert_desc x l) (x :: l).
Proof.
  induction l as [|y l IH]; simpl; [reflexivity|].
  destruct (snd y <=? snd x); [reflexivity|].
  rewrite IH. apply perm_swap.
Qed.

Lemma sorted_desc_Permutation (l : list (ascii * Z)) :
  Permutation (sorted_desc l) l.
Proof.
  induction l as [|x l IH]; simpl; [reflexivity|].
  rewrite insert_desc_Permutation. now constructor.
Qed.

Section Stable.
Variable rank : ascii -> nat.

Lemma insert_desc_sorted (x : ascii * Z) (l : list (ascii * Z)) :
  StronglySorted (precedes_count rank) l ->
  Forall (ranked_before rank x) l ->
  StronglySorted (precedes_count rank) (insert_desc x l).
Proof.
  induction 1 as [|y l Hs IH Hy]; simpl; intros Hall.
  - constructor; constructor.
  - inversion Hall as [|? ? Hxy Hxl]; subst.
    destruct (Z.leb_spec (snd y) (snd x)) as [Hle|Hlt].
    + constructor; [now constructor|].
      constructor.
      * unfold precedes_count. unfold ranked_before in Hxy. lia.
      * rewrite Forall_forall in *. intros z Hz.
        specialize (Hy z Hz). specialize (Hxl z Hz).
        unfold precedes_count, ranked_before in *. lia.
    + constructor; [now apply IH|].
      rewrite Forall_forall in *. intros z Hz.
      apply (Permutation_in _ (insert_desc_Permutation x l)) in Hz.
      destruct Hz as [<-|Hz]; [|now apply Hy].
      unfold precedes_count. lia.
Qed.

(** The sort puts higher counts first and is stable. *)
Lemma sorted_desc_sorted (l : list (ascii * Z)) :
  StronglySorted (ranked_before rank) l ->
  StronglySorted (precedes_count rank) (sorted_desc l).
Proof.
  induction 1 as [|x l Hs IH Hx]; simpl; [constructor|].
  apply insert_desc_sorted; [assumption|].
  rewrite Forall_forall in *. intros z Hz. apply Hx.
  now apply (Permutation_in _ (sorted_desc_Permutation l)).
Qed.
End Stable.

Lemma most_common_counter_of (cs : list ascii) :
  StronglySorted (precedes_count (fun c => first_index c cs))
                 (most_common (counter_of cs)).
Proof.
  apply sorted_desc_sorted. unfold Dict.items.
  apply (StronglySorted_map fst
           (fun a b => (first_index a cs < first_index b cs)%nat)).
  apply keys_counter_of_order.
Qed.

(** ** [normalize] *)

Lemma comprehension_Ok {A B : Type} (f : A -> result B) (g : A -> B)
      (l : list A) :
  (forall x, In x l -> f x = Ok (g x)) -> comprehension f l = Ok (map g l).
Proof.
  induction l as [|x l IH]; simpl; intros H; [reflexivity|].
  rewrite (H x) by now left. simpl.
  rewrite IH by (intros y Hy; apply H; now right). reflexivity.
Qed.

(** [normalize] raises exactly when the counter is not empty and its
    counts add up to zero. *)
Lemma normalize_Ok (counter : Counter) :
  sum (Dict.values counter) <> 0 ->
  normalize counter = Ok (frequencies counter).
Proof.
  intros Hne. unfold normalize, frequencies.
  apply comprehension_Ok. intros [c k] _. unfold truediv.
  destruct (Z.eqb_spec (sum (Dict.values counter)) 0); [contradiction|].
  reflexivity.
Qed.

Lemma normalize_Raise (c : ascii) (k : Z) (counter : Counter) :
  sum (Dict.values ((c, k) :: counter)) = 0 ->
  normalize ((c, k) :: counter) = Raise ZeroDivisionError.
Proof.
  intros Hz. unfold normalize. rewrite Hz.
  destruct (most_common ((c, k) :: counter)) as [|[c' k'] l] eqn:Hm.
  - pose proof (sorted_desc_Permutation ((c, k) :: counter)) as Hp.
    unfold most_common, Dict.items in Hm. rewrite Hm in Hp.
    now apply Permutation_nil in Hp.
  - reflexivity.
Qed.

(** ** The sliding window *)

Lemma join_chars (s : string) : join EmptyString (chars s) = s.
Proof.
  induction s as [|a s IH]; [reflexivity|].
  unfold chars in *. simpl list_ascii_of_string. simpl map.
  simpl join. destruct (map str (list_ascii_of_string s)) eqn:Hm.
  - destruct s; [reflexivity | discriminate].
  - simpl in *. now rewrite IH.
Qed.

Lemma slide_length (n : Z) (history : string) (char : ascii) :
  String.length history = 1%nat ->
  String.length (slide n history char) = 1%nat.
Proof.
  unfold slide. destruct (n =? 1); [reflexivity|].
  destruct history as [|a [|b s]]; simpl; try discriminate. reflexivity.
Qed.

(** Whatever [n] is, a window of length one slides to the character just
    read. *)
Lemma slide_eq (n : Z) (history : string) (char : ascii) :
  String.length history = 1%nat -> slide n history char = str char.
Proof.
  unfold slide. destruct (n =? 1); [reflexivity|].
  destruct history as [|a [|b s]]; simpl; try discriminate. reflexivity.
Qed.

Lemma observations_length_1 (n : Z) (text : list ascii) (history : string) :
  String.length history = 1%nat ->
  Forall (fun o => String.length (fst o) = 1%nat)
         (observations n history text).
Proof.
  revert history. induction text as [|c text IH]; intros history Hlen; simpl.
  - constructor.
  - constructor.
    + simpl. now rewrite join_chars.
    + apply IH. now apply slide_length.
Qed.

Lemma train_loop_history (n : Z) (text : list ascii) (st : RawModel * string) :
  String.length (snd st) = 1%nat ->
  String.length (snd (fold_left (train_body n) text st)) = 1%nat.
Proof.
  revert st. induction text as [|c text IH]; intros [raw history] Hlen; simpl.
  - assumption.
  - apply IH. simpl. now apply slide_length.
Qed.

Lemma train_loop_raw (n : Z) (text : list ascii) (raw : RawModel)
      (history : string) :
  fst (fold_left (train_body n) text (raw, history))
  = fold_left (fun raw o => count_up raw (fst o) (snd o))
              (observations n history text) raw.
Proof.
  revert raw history. induction text as [|c text IH]; intros raw history.
  - reflexivity.
  - simpl. now rewrite IH.
Qed.

(** ** The raw model *)

Lemma raw_of_snoc (obs : list (string * ascii)) (o : string * ascii) :
  raw_of (obs ++ [o])%list = count_up (raw_of obs) (fst o) (snd o).
Proof. unfold raw_of. now rewrite fold_left_app. Qed.

Lemma followers_snoc (h : string) (obs : list (string * ascii))
      (o : string * ascii) :
  followers h (obs ++ [o])%list
  = (followers h obs ++ if String.eqb (fst o) h then [snd o] else [])%list.
Proof.
  unfold followers. rewrite filter_app, map_app. simpl.
  now destruct (String.eqb (fst o) h).
Qed.

Lemma get_count_up_same (raw : RawModel) (h : string) (c : ascii) :
  Dict.get String.eqb (count_up raw h c) h =
  Some (counter_incr
          (match Dict.get String.eqb raw h with
           | Some counter => counter
           | None => []
           end) c).
Proof.
  unfold count_up, defaultdict_get.
  destruct (Dict.get String.eqb raw h);
    now rewrite (DictFacts.get_set_same _ String.eqb_spec).
Qed.

Lemma get_count_up_other (raw : RawModel) (h h' : string) (c : ascii) :
  h <> h' ->
  Dict.get String.eqb (count_up raw h c) h' = Dict.get String.eqb raw h'.
Proof.
  intros Hne. unfold count_up, defaultdict_get.
  destruct (Dict.get String.eqb raw h);
    now rewrite ?(DictFacts.get_set_other _ String.eqb_spec) by assumption.
Qed.

Lemma NoDup_count_up (raw : RawModel) (h : string) (c : ascii) :
  NoDup (Dict.keys raw) -> NoDup (Dict.keys (count_up raw h c)).
Proof.
  intros Hnd. unfold count_up, defaultdict_get.
  destruct (Dict.get String.eqb raw h);
    now repeat apply (DictFacts.NoDup_set _ String.eqb_spec).
Qed.

(** The entry of [h] in the raw model: absent when nothing was observed
    after [h], the counter of what was observed after it otherwise. *)
Lemma get_raw_of (obs : list (string * ascii)) (h : string) :
  Dict.get String.eqb (raw_of obs) h =
  match followers h obs with
  | [] => None
  | _ :: _ => Some (counter_of (followers h obs))
  end.
Proof.
  induction obs as [|[h0 c0] obs IH] using rev_ind; [reflexivity|].
  rewrite raw_of_snoc, followers_snoc. simpl fst. simpl snd.
  destruct (String.eqb_spec h0 h) as [->|Hne].
  - rewrite get_count_up_same, IH, counter_of_snoc.
    destruct (followers h obs); reflexivity.
  - rewrite get_count_up_other by assumption.
    now rewrite IH, app_nil_r.
Qed.

Lemma NoDup_raw_of (obs : list (string * ascii)) :
  NoDup (Dict.keys (raw_of obs)).
Proof.
  induction obs as [|o obs IH] using rev_ind; [constructor|].
  rewrite raw_of_snoc. now apply NoDup_count_up.
Qed.

(** Every counter of the raw model counts at least one character. *)
Lemma In_raw_of (obs : list (string * ascii)) (h : string)
      (counter : Counter) :
  In (h, counter) (raw_of obs) ->
  counter = counter_of (followers h obs) /\ followers h obs <> [].
Proof.
  intros Hin.
  apply (DictFacts.In_get _ String.eqb_spec) in Hin; [|apply NoDup_raw_of].
  rewrite get_raw_of in Hin.
  destruct (followers h obs); [discriminate|].
  injection Hin as <-. split; [reflexivity | discriminate].
Qed.

Lemma raw_of_total (obs : list (string * ascii)) (h : string)
      (counter : Counter) :
  In (h, counter) (raw_of obs) -> 1 <= sum (Dict.values counter).
Proof.
  intros Hin. apply In_raw_of in Hin as [-> Hne].
  rewrite sum_values_counter_of.
  destruct (followers h obs); [congruence | simpl; lia].
Qed.

(** ** [train_lm] in closed form *)

Lemma dict_comprehension_Ok (items : list (string * Counter)) (lm : Model) :
  NoDup (Dict.keys lm ++ Dict.keys items)%list ->
  (forall h counter, In (h, counter) items ->
                     sum (Dict.values counter) <> 0) ->
  dict_comprehension items lm
  = Ok (lm ++ map (fun x => (fst x, frequencies (snd x))) items)%list.
Proof.
  revert lm. induction items as [|[h counter] items IH]; intros lm Hnd Hsum.
  - simpl. now rewrite app_nil_r.
  - simpl. rewrite normalize_Ok by (apply (Hsum h); now left). simpl.
    assert (Hnin : ~ In h (Dict.keys lm)).
    { intros Hin. simpl in Hnd. apply NoDup_remove_2 in Hnd.
      apply Hnd. apply in_or_app. now left. }
    apply (DictFacts.get_None _ String.eqb_spec) in Hnin.
    rewrite (DictFacts.set_absent _ String.eqb_spec _ _ _ Hnin).
    rewrite IH.
    + now rewrite <- app_assoc.
    + unfold Dict.keys in *. rewrite map_app. simpl in *.
      now rewrite <- app_assoc.
    + intros h' c' Hin. apply (Hsum h'). now right.
Qed.

Lemma train_lm_closed_form (text : string) (n : Z) :
  train_lm text n
  = Ok (map (fun x => (fst x, frequencies (snd x)))
            (raw_of (observations n "~" (list_ascii_of_string text)))).
Proof.
  unfold train_lm, train_loop, Dict.items.
  rewrite train_loop_raw. fold (raw_of (observations n "~"
                                          (list_ascii_of_string text))).
  rewrite dict_comprehension_Ok; [reflexivity| |].
  - simpl. apply NoDup_raw_of.
  - intros h counter Hin. apply raw_of_total in Hin. lia.
Qed.

(** ** Frequencies *)

#[local] Arguments Qred : simpl never.

Lemma inject_Z_nonzero (t : Z) : t <> 0 -> ~ (inject_Z t == 0)%Q.
Proof. unfold Qeq. simpl. lia. Qed.

Lemma Qsum_quotients (l : list (ascii * Z)) (t : Z) :
  (Qsum (map (fun x => Qred (inject_Z (snd x) / inject_Z t)) l)
   == inject_Z (sum (map snd l)) / inject_Z t)%Q.
Proof.
  induction l as [|x l IH]; simpl.
  - unfold sum. simpl. unfold Qdiv. ring.
  - rewrite sum_cons, inject_Z_plus, Qred_correct, IH.
    unfold Qdiv. ring.
Qed.

Lemma quotient_lt (a b t : Z) :
  0 < t -> a < b ->
  (Qred (inject_Z a / inject_Z t) < Qred (inject_Z b / inject_Z t))%Q.
Proof.
  intros Ht Hab. rewrite !Qred_correct. unfold Qdiv.
  apply Qmult_lt_compat_r.
  - apply Qinv_lt_0_compat. change 0%Q with (inject_Z 0).
    now rewrite <- Zlt_Qlt.
  - now rewrite <- Zlt_Qlt.
Qed.

Lemma quotient_nonneg (a t : Z) :
  0 < t -> 0 <= a -> (0 <= Qred (inject_Z a / inject_Z t))%Q.
Proof.
  intros Ht Ha. rewrite Qred_correct. unfold Qdiv.
  apply Qmult_le_0_compat.
  - change 0%Q with (inject_Z 0). now rewrite <- Zle_Qle.
  - apply Qinv_le_0_compat. change 0%Q with (inject_Z 0).
    rewrite <- Zle_Qle. lia.
Qed.

Section FrequenciesOfCounter.
Variable cs : list ascii.
Hypothesis cs_not_empty : cs <> [].

Lemma total_pos : 0 < total_of cs.
Proof. unfold total_of. destruct cs; [congruence | simpl; lia]. Qed.

Lemma frequencies_counter_of :
  frequencies (counter_of cs)
  = map (fun x => (fst x, Qred (inject_Z (snd x) / inject_Z (total_of cs))))
        (most_common (counter_of cs)).
Proof. unfold frequencies, total_of. now rewrite sum_values_counter_of. Qed.

Lemma most_common_Permutation :
  Permutation (most_common (counter_of cs)) (counter_of cs).
Proof. apply sorted_desc_Permutation. Qed.

Lemma frequencies_sum :
  (Qsum (map snd (frequencies (counter_of cs))) == 1)%Q.
Proof.
  rewrite frequencies_counter_of, map_map. simpl.
  rewrite Qsum_quotients.
  rewrite (sum_Permutation _ (Dict.values (counter_of cs)))
    by (apply Permutation_map, most_common_Permutation).
  rewrite sum_values_counter_of. fold (total_of cs). unfold Qdiv.
  apply Qmult_inv_r, inject_Z_nonzero. pose proof total_pos. lia.
Qed.

Lemma frequencies_In (c : ascii) (p : Q) :
  In (c, p) (frequencies (counter_of cs)) ->
  p = Qred (inject_Z (Z.of_nat (occurrences c cs)) / inject_Z (total_of cs))
  /\ In c cs.
Proof.
  rewrite frequencies_counter_of. intros Hin.
  apply in_map_iff in Hin as ([c' k] & [= <- <-] & Hin).
  apply (Permutation_in _ most_common_Permutation) in Hin.
  apply In_counter_of in Hin as [-> Hc]. simpl. now split.
Qed.

Lemma frequencies_keys :
  Permutation (map fst (frequencies (counter_of cs)))
              (Dict.keys (counter_of cs)).
Proof.
  rewrite frequencies_counter_of, map_map. simpl.
  apply Permutation_map, most_common_Permutation.
Qed.

Lemma frequencies_sorted :
  StronglySorted (precedes cs) (frequencies (counter_of cs)).
Proof.
  rewrite frequencies_counter_of.
  apply (StronglySorted_map
           (fun x => (fst x, Qred (inject_Z (snd x) / inject_Z (total_of cs))))).
  eapply StronglySorted_weaken; [|apply most_common_counter_of].
  intros x y _ _ [Hlt|[Heq Hrank]]; unfold precedes; simpl.
  - left. apply quotient_lt; [apply total_pos | assumption].
  - right. rewrite Heq. split; [reflexivity | assumption].
Qed.

Lemma frequencies_accepted : accepted (frequencies (counter_of cs)).
Proof.
  split; [|split].
  - intros Hnil.
    pose proof frequencies_keys as Hp. rewrite Hnil in Hp. simpl in Hp.
    apply Permutation_nil in Hp.
    destruct cs as [|c cs']; [congruence|].
    assert (Hin : In c (Dict.keys (counter_of (c :: cs'))))
      by (apply keys_counter_of; now left).
    rewrite Hp in Hin. contradiction.
  - rewrite Forall_forall. intros [c p] Hin.
    apply frequencies_In in Hin as [-> _]. simpl.
    apply quotient_nonneg; [apply total_pos | lia].
  - rewrite frequencies_sum. vm_compute. discriminate.
Qed.
End FrequenciesOfCounter.

(** ** Sampling *)

Lemma filter_length_lt {A : Type} (f : A -> bool) (l : list A) (x : A) :
  In x l -> f x = false ->
  (List.length (filter f l) < List.length l)%nat.
Proof.
  induction l as [|y l IH]; simpl; [tauto|].
  intros [->|Hin] Hx.
  - rewrite Hx. pose proof (filter_length_le f l). lia.
  - specialize (IH Hin Hx). destruct (f y); simpl; lia.
Qed.

Lemma cumsum_from_length (p : list Q) (acc : Q) :
  List.length (cumsum_from acc p) = List.length p.
Proof.
  revert acc. induction p as [|x p IH]; intros acc; simpl; [reflexivity|].
  now rewrite IH.
Qed.

Lemma last_In {A : Type} (l : list A) (d : A) : l <> [] -> In (last l d) l.
Proof.
  induction l as [|x l IH]; [congruence|]. intros _.
  destruct l as [|y l]; [now left|].
  right. apply IH. discriminate.
Qed.

(** The last cumulative sum is the sum of the whole list. *)
Lemma last_cumsum_from (p : list Q) (acc d : Q) :
  p <> [] -> (last (cumsum_from acc p) d == acc + Qsum p)%Q.
Proof.
  revert acc. induction p as [|x p IH]; intros acc Hne; [congruence|].
  destruct p as [|y p].
  - simpl. ring.
  - change (cumsum_from acc (x :: y :: p))
      with ((acc + x)%Q :: cumsum_from (acc + x)%Q (y :: p)).
    change (last ((acc + x)%Q :: cumsum_from (acc + x)%Q (y :: p)) d)
      with (last (cumsum_from (acc + x)%Q (y :: p)) d).
    rewrite IH by discriminate.
    change (Qsum (x :: y :: p)) with (x + Qsum (y :: p))%Q. ring.
Qed.

Lemma near_one_pos (q : Q) : (Qabs (q - 1) <= atol)%Q -> (0 < q)%Q.
Proof.
  intros H. apply Qabs_diff_Qle_condition in H as [_ H].
  apply Qlt_le_trans with (1 - atol)%Q; [reflexivity|].
  apply (Qplus_le_l _ _ atol).
  eapply Qle_trans; [|exact H]. vm_compute. discriminate.
Qed.

Section Sampling.
Variable random_sample : nat -> Q.
Hypothesis samples_uniform : uniform random_sample.

(** On an accepted distribution [choice] raises nothing, draws one
    sample and returns one of the listed characters. *)
Lemma np_random_choice_Ok (d : Distribution) (s : rng) :
  accepted d ->
  exists c,
    np_random_choice random_sample (map fst d) (map snd d) s = Ok (c, S s)
    /\ In c (map fst d).
Proof.
  intros (Hne & Hpos & Hsum). unfold np_random_choice.
  rewrite !length_map.
  destruct d as [|x0 d0] eqn:Hd; [congruence|]. rewrite <- Hd in *.
  assert (Hlen : (List.length d =? 0)%nat = false)
    by (rewrite Hd; reflexivity).
  rewrite Hlen, Nat.eqb_refl. cbn [negb].
  assert (Hneg : existsb (fun x => negb (Qle_bool 0 x)) (map snd d) = false).
  { destruct (existsb _ _) eqn:He; [|reflexivity].
    apply existsb_exists in He as (q & Hq & Hb).
    apply in_map_iff in Hq as (x & <- & Hx).
    rewrite Forall_forall in Hpos. apply Hpos in Hx.
    apply Qle_bool_iff in Hx. rewrite Hx in Hb. discriminate. }
  rewrite Hneg.
  assert (Hs : Qle_bool (Qabs (Qsum (map snd d) - 1)) atol = true)
    by now apply Qle_bool_iff.
  rewrite Hs. cbn [negb].
  set (cdf := cumsum (map snd d)).
  set (top := last cdf 0%Q).
  assert (Hcdf : cdf <> []).
  { intros Hnil. apply (f_equal (@List.length Q)) in Hnil.
    unfold cdf, cumsum in Hnil.
    rewrite cumsum_from_length, length_map, Hd in Hnil. discriminate. }
  assert (Htop : (0 < top)%Q).
  { unfold top, cdf, cumsum. rewrite last_cumsum_from.
    - rewrite Qplus_0_l. now apply near_one_pos.
    - rewrite Hd. discriminate. }
  assert (Hidx : (searchsorted_right (map (fun x => (x / top)%Q) cdf)
                                     (random_sample s)
                  < List.length d)%nat).
  { unfold searchsorted_right.
    replace (List.length d)
      with (List.length (map (fun x => (x / top)%Q) cdf))
      by (unfold cdf, cumsum;
          now rewrite length_map, cumsum_from_length, length_map).
    apply filter_length_lt with (x := (top / top)%Q).
    - apply (in_map (fun x => (x / top)%Q)). now apply last_In.
    - destruct (Qle_bool (top / top) (random_sample s)) eqn:Hb;
        [|reflexivity].
      apply Qle_bool_iff in Hb. exfalso.
      destruct (samples_uniform s) as [_ Hlt].
      apply (Qlt_not_le _ _ Hlt).
      unfold Qdiv in Hb. rewrite Qmult_inv_r in Hb; [exact Hb|].
      intros H0. rewrite H0 in Htop. discriminate. }
  destruct (nth_error (map fst d) _) as [c|] eqn:Hn.
  - exists c. split; [reflexivity|]. eapply nth_error_In, Hn.
  - apply nth_error_None in Hn. rewrite length_map in Hn. lia.
Qed.

Lemma get_contains (lm : Model) (history : string) :
  Dict.contains String.eqb lm history = true <->
  exists d, Dict.get String.eqb lm history = Some d.
Proof.
  unfold Dict.contains. destruct (Dict.get String.eqb lm history) as [d|].
  - split; [eauto | reflexivity].
  - split; [discriminate | intros [d [=]]].
Qed.

(** [generate_letter] on a well-formed model: a miss gives the sentinel
    and leaves the generator alone, a hit draws one sample. *)
Lemma generate_letter_Ok (lm : Model) (history : string) (s : rng) :
  well_formed lm ->
  exists c s',
    generate_letter random_sample lm history s = Ok (c, s')
    /\ emittable lm c.
Proof.
  intros Hwf. unfold generate_letter.
  destruct (Dict.contains String.eqb lm history) eqn:Hc; cbn [negb].
  - apply get_contains in Hc as [d Hd].
    unfold bind, getitem. rewrite Hd. unfold ret.
    pose proof (Hwf _ _ Hd) as Hacc.
    destruct (np_random_choice_Ok d s Hacc) as (c & Hch & Hin).
    unfold unzip. destruct d as [|x d']; [now destruct Hacc|].
    rewrite Hch. exists c, (S s). split; [reflexivity|].
    right. apply in_map_iff in Hin as ([c' p] & <- & Hin).
    now exists history, (x :: d'), p.
  - exists "~"%char, s. split; [reflexivity | now left].
Qed.

Lemma for_range_S {St : Type} (k : nat) (body : St -> Py St) (st : St)
      (s : rng) :
  for_range (S k) body st s =
  match body st s with
  | Ok (st', s') => for_range k body st' s'
  | Raise e => Raise e
  end.
Proof. reflexivity. Qed.

Lemma generate_body_Ok (lm : Model) (n : Z) (history : string)
      (text : list ascii) (s s1 : rng) (c : ascii) :
  generate_letter random_sample lm history s = Ok (c, s1) ->
  generate_body random_sample lm n (history, text) s
  = Ok ((slide n history c, (text ++ [c])%list), s1).
Proof. intros H. unfold generate_body, bind. now rewrite H. Qed.

Lemma for_range_generate (lm : Model) (n : Z) (k : nat)
      (history : string) (text : list ascii) (s : rng) :
  well_formed lm ->
  exists history' new s',
    for_range k (generate_body random_sample lm n) (history, text) s
    = Ok ((history', (text ++ new)%list), s')
    /\ List.length new = k
    /\ Forall (emittable lm) new.
Proof.
  intros Hwf. revert history text s.
  induction k as [|k IH]; intros history text s.
  - exists history, [], s. rewrite app_nil_r. repeat split. constructor.
  - destruct (generate_letter_Ok lm history s Hwf) as (c & s1 & Hc & Hem).
    destruct (IH (slide n history c) (text ++ [c])%list s1)
      as (history' & new & s' & Hrun & Hlen & Hall).
    exists history', (c :: new), s'. split; [|split].
    + rewrite for_range_S, (generate_body_Ok _ _ _ _ _ _ _ Hc), Hrun.
      now rewrite <- app_assoc.
    + simpl. now rewrite Hlen.
    + now constructor.
Qed.
End Sampling.

Lemma length_join_space (text : list ascii) :
  String.length (join " " (map str text))
  = (2 * List.length text - 1)%nat.
Proof.
  induction text as [|c text IH]; [reflexivity|].
  destruct text as [|c' text]; [reflexivity|].
  change (join " " (map str (c :: c' :: text)))
    with (String c (String " " (join " " (map str (c' :: text))))).
  cbn [String.length]. rewrite IH. simpl List.length. lia.
Qed.

(** ** Consequences for [train_lm] and [generate_text] *)

(** [n] is only compared with 1, and both branches of the update turn a
    window of length one into the character just read: what is observed
    does not depend on [n]. *)
Lemma observations_any_n (n m : Z) (text : list ascii) (history : string) :
  String.length history = 1%nat ->
  observations n history text = observations m history text.
Proof.
  revert history. induction text as [|c text IH]; intros history Hlen;
    [reflexivity|].
  simpl. rewrite !slide_eq by assumption. f_equal. now apply IH.
Qed.

(** The context of a character is the character before it, and the
    sentinel for the first one. *)
Lemma observations_previous_char (n : Z) (text : list ascii) (c0 : ascii) :
  observations n (str c0) text = combine (map str (c0 :: text)) text.
Proof.
  revert c0. induction text as [|c text IH]; intros c0; [reflexivity|].
  simpl. rewrite slide_eq by reflexivity. now rewrite IH.
Qed.

Lemma get_train_lm (text : string) (n : Z) (lm : Model) (h : string)
      (dist : Distribution) :
  train_lm text n = Ok lm ->
  Dict.get String.eqb lm h = Some dist ->
  after text n h <> [] /\ dist = frequencies (counter_of (after text n h)).
Proof.
  rewrite train_lm_closed_form. intros [= <-].
  rewrite (DictFacts.get_map _ String.eqb_spec), get_raw_of.
  unfold after.
  destruct (followers h _) eqn:Hf; simpl; [discriminate|].
  intros [= <-]. split; [discriminate | reflexivity].
Qed.

Lemma keys_train_lm (text : string) (n : Z) (lm : Model) :
  train_lm text n = Ok lm ->
  Forall (fun h => String.length h = 1%nat) (Dict.keys lm).
Proof.
  rewrite train_lm_closed_form. intros [= <-].
  rewrite DictFacts.keys_map. rewrite Forall_forall. intros h Hin.
  destruct (Dict.get String.eqb
              (raw_of (observations n "~" (list_ascii_of_string text))) h)
    as [counter|] eqn:Hg.
  - rewrite get_raw_of in Hg. unfold followers in Hg.
    destruct (filter _ _) as [|o l] eqn:Hfil; [discriminate|].
    assert (Ho : In o (filter (fun o => String.eqb (fst o) h)
                         (observations n "~" (list_ascii_of_string text))))
      by (rewrite Hfil; now left).
    apply filter_In in Ho as [Ho Heq].
    apply String.eqb_eq in Heq. subst h.
    pose proof (observations_length_1 n (list_ascii_of_string text) "~"
                  eq_refl) as Hall.
    rewrite Forall_forall in Hall. now apply Hall.
  - apply (DictFacts.get_None _ String.eqb_spec) in Hg. contradiction.
Qed.

(** A trained model only holds distributions that [choice] accepts. *)
Lemma train_lm_well_formed (text : string) (n : Z) (lm : Model) :
  train_lm text n = Ok lm -> well_formed lm.
Proof.
  intros Ht h d Hg. destruct (get_train_lm _ _ _ _ _ Ht Hg) as [Hne ->].
  now apply frequencies_accepted.
Qed.

Lemma for_range_history (random_sample : nat -> Q) (lm : Model) (n : Z)
      (k : nat) (st st' : string * list ascii) (s s' : rng) :
  String.length (fst st) = 1%nat ->
  for_range k (generate_body random_sample lm n) st s = Ok (st', s') ->
  String.length (fst st') = 1%nat.
Proof.
  revert st s. induction k as [|k IH]; intros [history text] s Hlen.
  - intros [= <- <-]. assumption.
  - rewrite for_range_S.
    destruct (generate_body random_sample lm n (history, text) s)
      as [[st1 s1]|e] eqn:Hb; [|discriminate].
    apply IH. unfold generate_body, bind in Hb.
    destruct (generate_letter random_sample lm history s) as [[c s2]|];
      [|discriminate].
    injection Hb as <- <-. simpl. now apply slide_length.
Qed.

Lemma well_formed_empty : well_formed [].
Proof. intros h d. discriminate. Qed.

(** ** The embedding on concrete inputs *)

(** The example of the docstring of [normalize]. *)
Example normalize_docstring :
  normalize [("a"%char, 1); ("b"%char, 3)]
  = Ok [("b"%char, (3 # 4)%Q); ("a"%char, (1 # 4)%Q)].
Proof. reflexivity. Qed.

(** Equal counts keep the order of the counter. *)
Example most_common_ties :
  most_common [("x"%char, 1); ("y"%char, 2); ("z"%char, 1); ("w"%char, 2)]
  = [("y"%char, 2); ("w"%char, 2); ("x"%char, 1); ("z"%char, 1)].
Proof. reflexivity. Qed.

(** The division by zero of [normalize] exists: it is met on a counter
    that is not empty and whose counts add up to zero. *)
Example normalize_zero_total :
  normalize [("a"%char, 0)] = Raise ZeroDivisionError.
Proof. reflexivity. Qed.

(** Six letters from the model trained on ["cacao"], every sample being
    1/2: after ["a"] the sample falls on ["o"], which is no context of the
    model, so the next letter is the sentinel and costs no sample. *)
Example generate_text_cacao :
  generate_text (fun _ => (1 # 2)%Q)
    [("~", [("c"%char, 1%Q)]);
     ("c", [("a"%char, 1%Q)]);
     ("a", [("c"%char, (1 # 2)%Q); ("o"%char, (1 # 2)%Q)])] 3 6 0%nat
  = Ok ("c a o ~ c a", 5%nat).
Proof. vm_compute. reflexivity. Qed.

(** A model with an empty distribution is not accepted: unpacking the
    result of [unzip] raises. *)
Example generate_text_empty_distribution :
  generate_text (fun _ => (1 # 2)%Q) [("~", [])] 2 1 0%nat
  = Raise ValueError.
Proof. reflexivity. Qed.

(** ** Binary64 rounding *)

Lemma frequencies_length (counter : Counter) :
  List.length (frequencies counter) = List.length counter.
Proof.
  unfold frequencies. rewrite length_map.
  apply Permutation_length, sorted_desc_Permutation.
Qed.

Lemma round_half_even_error (x : Q) :
  (Qabs (inject_Z (round_half_even x) - x) <= 1 # 2)%Q.
Proof.
  unfold round_half_even.
  pose proof (Qfloor_le x) as Hlo. pose proof (Qlt_floor x) as Hhi.
  rewrite inject_Z_plus in Hhi. change (inject_Z 1) with 1%Q in Hhi.
  apply Qabs_Qle_condition.
  destruct (Qcompare_spec (x - inject_Z (Qfloor x)) (1 # 2)) as [He|Hl|Hg].
  - destruct (Z.even (Qfloor x)); rewrite ?inject_Z_plus;
      change (inject_Z 1) with 1%Q; split; lra.
  - split; lra.
  - rewrite inject_Z_plus. change (inject_Z 1) with 1%Q. split; lra.
Qed.

Lemma round_half_even_nonneg (x : Q) :
  (0 <= x)%Q -> 0 <= round_half_even x.
Proof.
  intros Hx. unfold round_half_even.
  assert (Hf : 0 <= Qfloor x).
  { change 0 with (Qfloor 0). now apply Qfloor_resp_le. }
  destruct (_ ?= _)%Q; [destruct (Z.even _)| |]; lia.
Qed.

Lemma pow2_pos (e : Z) : (0 < pow2 e)%Q.
Proof. unfold pow2. now apply Qpower_0_lt. Qed.

Lemma pow2_le (e e' : Z) : e <= e' -> (pow2 e <= pow2 e')%Q.
Proof. intros H. unfold pow2. now apply Qpower_le_compat_l. Qed.

Lemma pow2_inverse (e : Z) : (pow2 e * pow2 (- e) == 1)%Q.
Proof.
  unfold pow2. rewrite <- Qpower_plus by discriminate.
  rewrite Z.add_opp_diag_r. reflexivity.
Qed.

Lemma ilog2_unit (a : Q) : (0 < a)%Q -> (a <= 1)%Q -> ilog2 a <= 0.
Proof.
  intros Hpos Hle. unfold ilog2.
  assert (H : Z.log2 (Qnum a) <= Z.log2 (Z.pos (Qden a))).
  { apply Z.log2_le_mono. unfold Qle in Hle. simpl in Hle. lia. }
  destruct (Qle_bool _ a); lia.
Qed.

Lemma Qabs_pos_eq (q : Q) : (0 < q)%Q -> Qabs q = q.
Proof.
  destruct q as [n d]. unfold Qlt. simpl. intros H.
  unfold Qabs. f_equal. apply Z.abs_eq. lia.
Qed.

(** A quotient in (0, 1] is rounded with an error of at most 2^-53. *)
Lemma binary64_unit (q : Q) :
  (0 < q)%Q -> (q <= 1)%Q ->
  exists f, binary64 q = Some f
            /\ (Qabs (f - q) <= 1 # 2 ^ 53)%Q /\ (0 <= f)%Q.
Proof.
  intros Hpos Hle. unfold binary64, round_positive.
  pose proof (Qred_correct q) as Hq. set (q0 := Qred q) in *.
  assert (Hpos0 : (0 < q0)%Q) by now rewrite Hq.
  assert (Hle0 : (q0 <= 1)%Q) by now rewrite Hq.
  assert (Hz : Qeq_bool q0 0 = false).
  { destruct (Qeq_bool q0 0) eqn:Hb; [|reflexivity].
    apply Qeq_bool_iff in Hb. rewrite Hb in Hpos0. discriminate. }
  rewrite Hz, (Qabs_pos_eq q0 Hpos0).
  set (e := Z.max (ilog2 q0) (-1022)).
  assert (He : e <= 0) by (pose proof (ilog2_unit q0 Hpos0 Hle0); lia).
  set (m := round_half_even (q0 * pow2 (52 - e))).
  pose proof (Qred_correct (inject_Z m * pow2 (e - 52))) as Hr.
  set (r := Qred (inject_Z m * pow2 (e - 52))) in *.
  assert (Hinv : (pow2 (52 - e) * pow2 (e - 52) == 1)%Q).
  { replace (e - 52) with (- (52 - e)) by lia. apply pow2_inverse. }
  assert (Herr : (Qabs (r - q0) <= 1 # 2 ^ 53)%Q).
  { assert (Heq : (r - q0
                  == (inject_Z m - q0 * pow2 (52 - e)) * pow2 (e - 52))%Q).
    { rewrite Hr. transitivity
        (inject_Z m * pow2 (e - 52)
         - q0 * (pow2 (52 - e) * pow2 (e - 52)))%Q; [|ring].
      rewrite Hinv. ring. }
    rewrite Heq, Qabs_Qmult.
    rewrite (Qabs_pos (pow2 (e - 52))) by apply Qlt_le_weak, pow2_pos.
    apply Qle_trans with ((1 # 2) * pow2 (-52))%Q.
    - apply Qle_trans with ((1 # 2) * pow2 (e - 52))%Q.
      + apply Qmult_le_compat_r;
          [apply round_half_even_error | apply Qlt_le_weak, pow2_pos].
      + apply Qmult_le_l; [reflexivity|]. apply pow2_le. lia.
    - vm_compute. discriminate. }
  assert (Hm : 0 <= m).
  { apply round_half_even_nonneg. apply Qmult_le_0_compat;
      apply Qlt_le_weak; [assumption | apply pow2_pos]. }
  assert (Hr0 : (0 <= r)%Q).
  { rewrite Hr. apply Qmult_le_0_compat;
      [|apply Qlt_le_weak, pow2_pos].
    change 0%Q with (inject_Z 0). now rewrite <- Zle_Qle. }
  assert (Hover : Qle_bool (pow2 1024) r = false).
  { destruct (Qle_bool (pow2 1024) r) eqn:Hb; [|reflexivity].
    apply Qle_bool_iff in Hb. exfalso.
    apply Qabs_Qle_condition in Herr as [_ Hup].
    assert (H53 : ((1 # 2 ^ 53) <= 1)%Q) by (vm_compute; discriminate).
    set (eps := (1 # 2 ^ 53)%Q) in *.
    assert (H2 : (pow2 1024 <= 2)%Q) by lra.
    revert H2. vm_compute. intros H. now apply H. }
  rewrite Hover.
  assert (Hs : Qle_bool 0 q0 = true)
    by (apply Qle_bool_iff; now apply Qlt_le_weak).
  rewrite Hs. exists r. split; [reflexivity|]. split; [|assumption].
  now rewrite <- Hq.
Qed.

Lemma binary64_zero (q : Q) : (q == 0)%Q -> binary64 q = Some 0%Q.
Proof.
  intros H. unfold binary64.
  assert (Hz : Qeq_bool (Qred q) 0 = true)
    by (apply Qeq_bool_iff; now rewrite Qred_correct).
  now rewrite Hz.
Qed.

Lemma binary64_Qeq (q q' : Q) : (q == q')%Q -> binary64 q = binary64 q'.
Proof. intros H. unfold binary64. now rewrite (Qred_complete _ _ H). Qed.

Lemma nearest_Qred (q : Q) : nearest (Qred q) = nearest q.
Proof. unfold nearest. now rewrite (binary64_Qeq _ _ (Qred_correct q)). Qed.

(** Rounding a quotient of [[0, 1]]: no overflow, an error of at most
    [2^-53], and a result that is not negative. *)
Lemma nearest_unit (q : Q) :
  (0 <= q)%Q -> (q <= 1)%Q ->
  binary64 q = Some (nearest q)
  /\ (Qabs (nearest q - q) <= 1 # 2 ^ 53)%Q
  /\ (0 <= nearest q)%Q.
Proof.
  intros H0 H1. unfold nearest.
  destruct (Qlt_le_dec 0 q) as [Hpos|Hneg].
  - destruct (binary64_unit q Hpos H1) as (f & -> & Herr & Hf). auto.
  - assert (Hq : (q == 0)%Q) by now apply Qle_antisym.
    rewrite (binary64_zero q Hq). split; [reflexivity|]. split.
    + rewrite Hq. vm_compute. discriminate.
    + apply Qle_refl.
Qed.

Lemma nearest_lt (q1 q2 : Q) :
  (0 <= q1)%Q -> (q2 <= 1)%Q -> (q1 + (1 # 2 ^ 52) < q2)%Q ->
  (nearest q1 < nearest q2)%Q.
Proof.
  intros H1 H2 Hgap.
  assert (H52 : ((1 # 2 ^ 52) == (1 # 2 ^ 53) + (1 # 2 ^ 53))%Q)
    by reflexivity.
  assert (Hp : (0 <= (1 # 2 ^ 53))%Q) by (vm_compute; discriminate).
  set (eps := (1 # 2 ^ 53)%Q) in *. set (eps2 := (1 # 2 ^ 52)%Q) in *.
  assert (Hq1 : (q1 <= 1)%Q) by lra.
  assert (Hq2 : (0 <= q2)%Q) by lra.
  destruct (nearest_unit q1 H1 Hq1) as (_ & He1 & _).
  destruct (nearest_unit q2 Hq2 H2) as (_ & He2 & _).
  fold eps in He1, He2.
  apply Qabs_Qle_condition in He1 as [_ He1].
  apply Qabs_Qle_condition in He2 as [He2 _].
  lra.
Qed.

Lemma quotient_unit (k t : Z) :
  0 <= k <= t -> 0 < t ->
  (0 <= inject_Z k / inject_Z t)%Q /\ (inject_Z k / inject_Z t <= 1)%Q.
Proof.
  intros Hk Ht.
  assert (Hpos : (0 < inject_Z t)%Q)
    by (change 0%Q with (inject_Z 0); now rewrite <- Zlt_Qlt).
  split.
  - apply Qle_shift_div_l; [assumption|]. rewrite Qmult_0_l.
    change 0%Q with (inject_Z 0). rewrite <- Zle_Qle. lia.
  - apply Qle_shift_div_r; [assumption|]. rewrite Qmult_1_l.
    rewrite <- Zle_Qle. lia.
Qed.

(** Distinct counts below [2^52] give distinct frequencies, in the same
    order. *)
Lemma nearest_quotient_lt (a b t : Z) :
  0 <= a -> a < b -> b <= t -> t < 2 ^ 52 ->
  (nearest (inject_Z a / inject_Z t) < nearest (inject_Z b / inject_Z t))%Q.
Proof.
  intros Ha Hab Hb Ht.
  assert (Hpos : (0 < inject_Z t)%Q)
    by (change 0%Q with (inject_Z 0); rewrite <- Zlt_Qlt; lia).
  apply nearest_lt.
  - apply quotient_unit; lia.
  - apply quotient_unit; lia.
  - apply Qlt_le_trans with (inject_Z a / inject_Z t + 1 / inject_Z t)%Q.
    + apply Qplus_lt_r. apply Qlt_shift_div_l; [assumption|].
      apply Qlt_le_trans with ((1 # 2 ^ 52) * inject_Z (2 ^ 52))%Q.
      * apply Qmult_lt_l; [reflexivity|]. now rewrite <- Zlt_Qlt.
      * vm_compute. discriminate.
    + setoid_replace (inject_Z a / inject_Z t + 1 / inject_Z t)%Q
        with (inject_Z (a + 1) / inject_Z t)%Q
        by (rewrite inject_Z_plus; unfold Qdiv; ring).
      unfold Qdiv. apply Qmult_le_compat_r.
      * rewrite <- Zle_Qle. lia.
      * apply Qinv_le_0_compat. now apply Qlt_le_weak.
Qed.

Lemma truediv_float_unit (k t : Z) :
  0 <= k <= t -> 0 < t ->
  truediv_float k t = Ok (nearest (Qred (inject_Z k / inject_Z t))).
Proof.
  intros Hk Ht. unfold truediv_float.
  destruct (Z.eqb_spec t 0); [lia|].
  destruct (quotient_unit k t Hk Ht) as [H0 H1].
  destruct (nearest_unit _ H0 H1) as (-> & _). now rewrite nearest_Qred.
Qed.

Lemma sum_nonneg_bound (l : list Z) (k : Z) :
  Forall (fun x => 0 <= x) l -> In k l -> 0 <= k <= sum l.
Proof.
  induction 1 as [|x l Hx Hl IH]; [intros []|].
  rewrite sum_cons. intros [<-|Hin].
  - assert (0 <= sum l).
    { clear - Hl. induction Hl; [reflexivity|]. rewrite sum_cons. lia. }
    lia.
  - specialize (IH Hin). lia.
Qed.

(** On a counter without negative counts and with a positive total the
    stored frequencies are the exact ones, rounded. *)
Lemma normalize_float_Ok (counter : Counter) :
  Forall (fun x => 0 <= snd x) counter ->
  0 < sum (Dict.values counter) ->
  normalize_float counter = Ok (rounded (frequencies counter)).
Proof.
  intros Hpos Ht. unfold normalize_float, rounded, frequencies.
  rewrite map_map. apply comprehension_Ok. intros [c k] Hin.
  apply (Permutation_in _ (sorted_desc_Permutation _)) in Hin.
  assert (Hk : 0 <= k <= sum (Dict.values counter)).
  { apply sum_nonneg_bound.
    - unfold Dict.values. rewrite Forall_forall in *. intros x Hx.
      apply in_map_iff in Hx as (y & <- & Hy). now apply Hpos.
    - unfold Dict.values. change k with (snd (c, k)). now apply in_map. }
  rewrite (truediv_float_unit k _ Hk Ht). reflexivity.
Qed.

Lemma rounded_sum (d : Distribution) :
  Forall (fun x => (0 <= snd x)%Q /\ (snd x <= 1)%Q) d ->
  (Qabs (Qsum (map snd (rounded d)) - Qsum (map snd d))
   <= inject_Z (Z.of_nat (List.length d)) * (1 # 2 ^ 53))%Q.
Proof.
  induction 1 as [|[c p] d [H0 H1] Hd IH].
  - vm_compute. discriminate.
  - change (Qsum (map snd (rounded ((c, p) :: d))))
      with (nearest p + Qsum (map snd (rounded d)))%Q.
    change (Qsum (map snd ((c, p) :: d))) with (p + Qsum (map snd d))%Q.
    change (List.length ((c, p) :: d)) with (S (List.length d)).
    rewrite Nat2Z.inj_succ, <- Z.add_1_r, inject_Z_plus.
    destruct (nearest_unit p H0 H1) as (_ & He & _).
    set (eps := (1 # 2 ^ 53)%Q) in *.
    apply Qabs_Qle_condition in He as [He1 He2].
    apply Qabs_Qle_condition in IH as [IH1 IH2].
    apply Qabs_Qle_condition.
    change (inject_Z 1) with 1%Q. split; lra.
Qed.

Lemma insert_desc_filter (x : ascii * Z) (l : list (ascii * Z)) (k : Z) :
  filter (fun y => snd y =? k) (insert_desc x l)
  = filter (fun y => snd y =? k) (x :: l).
Proof.
  induction l as [|y l IH]; [reflexivity|].
  simpl insert_desc. destruct (Z.leb_spec (snd y) (snd x)) as [Hle|Hlt];
    [reflexivity|].
  simpl in *. rewrite IH.
  destruct (Z.eqb_spec (snd x) k), (Z.eqb_spec (snd y) k);
    try reflexivity. lia.
Qed.

Lemma insert_desc_descending (x : ascii * Z) (l : list (ascii * Z)) :
  StronglySorted (fun a b => snd b <= snd a) l ->
  StronglySorted (fun a b => snd b <= snd a) (insert_desc x l).
Proof.
  induction 1 as [|y l Hs IH Hy]; simpl.
  - constructor; constructor.
  - destruct (Z.leb_spec (snd y) (snd x)) as [Hle|Hlt].
    + constructor; [now constructor|]. constructor; [assumption|].
      rewrite Forall_forall in *. intros z Hz. specialize (Hy z Hz). lia.
    + constructor; [assumption|].
      rewrite Forall_forall in *. intros z Hz.
      apply (Permutation_in _ (insert_desc_Permutation x l)) in Hz.
      destruct Hz as [<-|Hz]; [lia | now apply Hy].
Qed.

Lemma stable_sort_of_items (counter : Counter) :
  Permutation (most_common counter) (Dict.items counter)
  /\ StronglySorted (fun a b => snd b <= snd a) (most_common counter)
  /\ same_order_of_ties (Dict.items counter) (most_common counter).
Proof.
  unfold most_common, Dict.items. split; [apply sorted_desc_Permutation|].
  split.
  - induction counter as [|x l IH]; simpl; [constructor|].
    now apply insert_desc_descending.
  - intros k. induction counter as [|x l IH]; [reflexivity|].
    simpl sorted_desc. rewrite insert_desc_filter. simpl. now rewrite IH.
Qed.

Lemma counter_counts_bound (counter : Counter) (x : ascii * Z) :
  Forall (fun x => 0 <= snd x) counter ->
  In x (most_common counter) ->
  0 <= snd x <= sum (Dict.values counter).
Proof.
  intros Hpos Hin.
  apply (Permutation_in _ (sorted_desc_Permutation _)) in Hin.
  apply sum_nonneg_bound.
  - unfold Dict.values. rewrite Forall_forall in *. intros y Hy.
    apply in_map_iff in Hy as (z & <- & Hz). now apply Hpos.
  - unfold Dict.values. now apply in_map.
Qed.

Lemma round_half_even_Z (n : Z) : round_half_even (inject_Z n) = n.
Proof.
  unfold round_half_even. rewrite Qfloor_Z.
  assert (H : (inject_Z n - inject_Z n ?= 1 # 2)%Q = Lt).
  { apply Qlt_alt. setoid_replace (inject_Z n - inject_Z n)%Q with 0%Q by ring.
    reflexivity. }
  now rewrite H.
Qed.

Lemma round_half_even_bounds (x : Q) :
  Qfloor x <= round_half_even x <= Qfloor x + 1.
Proof.
  unfold round_half_even.
  destruct (_ ?= _)%Q; [destruct (Z.even _)| |]; lia.
Qed.

Lemma round_half_even_mono (x y : Q) :
  (x <= y)%Q -> round_half_even x <= round_half_even y.
Proof.
  intros Hxy.
  pose proof (Qfloor_resp_le _ _ Hxy) as Hf.
  destruct (Z.eq_dec (Qfloor x) (Qfloor y)) as [Heq|Hne].
  - unfold round_half_even. rewrite <- Heq.
    destruct (Qcompare_spec (x - inject_Z (Qfloor x)) (1 # 2)) as [Hx|Hx|Hx];
      destruct (Qcompare_spec (y - inject_Z (Qfloor x)) (1 # 2)) as [Hy|Hy|Hy];
      try destruct (Z.even (Qfloor x)); try lia; exfalso; lra.
  - pose proof (round_half_even_bounds x). pose proof (round_half_even_bounds y).
    lia.
Qed.





Lemma pow2_add (a b : Z) : (pow2 (a + b) == pow2 a * pow2 b)%Q.
Proof. unfold pow2. now apply Qpower_plus. Qed.

Lemma pow2_succ (e : Z) : (pow2 (e + 1) == 2 * pow2 e)%Q.
Proof. rewrite pow2_add. change (pow2 1) with 2%Q. ring. Qed.

Lemma pow2_Z (n : Z) : 0 <= n -> (pow2 n == inject_Z (2 ^ n))%Q.
Proof. intros H. unfold pow2. now rewrite Zpower_Qpower. Qed.

Lemma pow2_lt_inv (a b : Z) : (pow2 a < pow2 b)%Q -> a < b.
Proof. intros H. unfold pow2 in H. now apply Qpower_lt_compat_l_inv in H. Qed.

(** [ilog2] is the binary exponent. *)
Lemma ilog2_spec (q : Q) :
  (0 < q)%Q -> (pow2 (ilog2 q) <= q)%Q /\ (q < pow2 (ilog2 q + 1))%Q.
Proof.
  intros Hq. unfold ilog2.
  set (ln := Z.log2 (Qnum q)). set (ld := Z.log2 (Z.pos (Qden q))).
  assert (Hn : 0 < Qnum q) by (unfold Qlt in Hq; simpl in Hq; lia).
  destruct (Z.log2_spec _ Hn) as [Hn1 Hn2]. fold ln in Hn1, Hn2.
  destruct (Z.log2_spec (Z.pos (Qden q)) eq_refl) as [Hd1 Hd2].
  fold ld in Hd1, Hd2.
  assert (Hln : 0 <= ln) by apply Z.log2_nonneg.
  assert (Hld : 0 <= ld) by apply Z.log2_nonneg.
  rewrite <- Z.add_1_r in Hn2, Hd2.
  assert (HA : (pow2 ln == inject_Z (2 ^ ln))%Q) by now apply pow2_Z.
  assert (HB : (pow2 ld == inject_Z (2 ^ ld))%Q) by now apply pow2_Z.
  assert (He : (pow2 (ln - ld) * pow2 ld == pow2 ln)%Q).
  { rewrite <- pow2_add. now replace (ln - ld + ld) with ln by lia. }
  assert (Hq' : (q * inject_Z (Z.pos (Qden q)) == inject_Z (Qnum q))%Q).
  { destruct q as [n d]. unfold Qeq. simpl. lia. }
  pose proof (pow2_pos (ln - ld)) as Hp. pose proof (pow2_pos ld) as Hpd.
  rewrite Zle_Qle in Hn1, Hd1. rewrite Zlt_Qlt in Hn2, Hd2.
  rewrite Z.pow_add_r, Z.pow_1_r, inject_Z_mult in Hn2, Hd2 by lia.
  change (inject_Z 2) with 2%Q in Hn2, Hd2.
  rewrite <- HA in Hn1, Hn2. rewrite <- HB in Hd1, Hd2.
  set (N := inject_Z (Qnum q)) in *. set (D := inject_Z (Z.pos (Qden q))) in *.
  set (P := pow2 (ln - ld)) in *. set (A := pow2 ln) in *.
  set (B := pow2 ld) in *.
  assert (Hup : (q < 2 * P)%Q).
  { apply Qnot_le_lt. intros Hc.
    assert ((2 * P) * D <= q * D)%Q by (apply Qmult_le_compat_r; lra).
    assert ((2 * P) * B <= (2 * P) * D)%Q by (apply Qmult_le_l; lra).
    lra. }
  assert (Hlo : (P < 2 * q)%Q).
  { apply Qnot_le_lt. intros Hc.
    assert ((2 * q) * B <= P * B)%Q by (apply Qmult_le_compat_r; lra).
    assert (q * D < q * (2 * B))%Q by (apply Qmult_lt_l; lra).
    lra. }
  destruct (Qle_bool P q) eqn:Hb.
  - apply Qle_bool_iff in Hb. split; [assumption|].
    fold P. rewrite pow2_succ. fold P. assumption.
  - assert (Hlt : (q < P)%Q).
    { apply Qnot_le_lt. intros Hc. apply Qle_bool_iff in Hc. congruence. }
    replace (ln - ld - 1 + 1) with (ln - ld) by lia. fold P.
    split; [|assumption].
    assert (Hh : (2 * pow2 (ln - ld - 1) == P)%Q).
    { unfold P. rewrite <- pow2_succ. now replace (ln - ld - 1 + 1)
        with (ln - ld) by lia. }
    lra.
Qed.

Lemma ilog2_mono (q1 q2 : Q) :
  (0 < q1)%Q -> (q1 <= q2)%Q -> ilog2 q1 <= ilog2 q2.
Proof.
  intros H1 H12.
  destruct (ilog2_spec q1 H1) as [Hl1 _].
  destruct (ilog2_spec q2) as [_ Hu2]; [lra|].
  assert (H : (pow2 (ilog2 q1) < pow2 (ilog2 q2 + 1))%Q) by lra.
  apply pow2_lt_inv in H. lia.
Qed.

Lemma pow2_sub_add (a b : Z) : (pow2 (a - b) * pow2 b == pow2 a)%Q.
Proof. rewrite <- pow2_add. now replace (a - b + b) with a by lia. Qed.

Lemma round_positive_mono (q1 q2 : Q) :
  (0 < q1)%Q -> (q1 <= q2)%Q ->
  (round_positive q1 <= round_positive q2)%Q.
Proof.
  intros H1 H12. assert (H2 : (0 < q2)%Q) by lra.
  pose proof (ilog2_mono q1 q2 H1 H12) as Hlog.
  unfold round_positive.
  set (e1 := Z.max (ilog2 q1) (-1022)). set (e2 := Z.max (ilog2 q2) (-1022)).
  assert (He : e1 <= e2) by lia.
  destruct (Z.eq_dec e1 e2) as [Heq|Hne].
  - rewrite <- Heq. apply Qmult_le_compat_r;
      [|apply Qlt_le_weak, pow2_pos].
    rewrite <- Zle_Qle. apply round_half_even_mono.
    apply Qmult_le_compat_r; [assumption | apply Qlt_le_weak, pow2_pos].
  - apply Qle_trans with (pow2 e2).
    + apply Qle_trans with (pow2 (e1 + 1)); [|apply pow2_le; lia].
      destruct (ilog2_spec q1 H1) as [_ Hu].
      assert (Hq : (q1 * pow2 (52 - e1) <= inject_Z (2 ^ 53))%Q).
      { rewrite <- (pow2_Z 53) by lia.
        rewrite <- (pow2_sub_add 53 (52 - e1)).
        replace (53 - (52 - e1)) with (e1 + 1) by lia.
        apply Qmult_le_compat_r; [|apply Qlt_le_weak, pow2_pos].
        apply Qle_trans with (pow2 (ilog2 q1 + 1));
          [now apply Qlt_le_weak | apply pow2_le; lia]. }
      apply round_half_even_mono in Hq. rewrite round_half_even_Z in Hq.
      rewrite <- (pow2_sub_add (e1 + 1) (e1 - 52)).
      replace (e1 + 1 - (e1 - 52)) with 53 by lia.
      apply Qmult_le_compat_r; [|apply Qlt_le_weak, pow2_pos].
      rewrite (pow2_Z 53) by lia. now rewrite <- Zle_Qle.
    + assert (He2 : e2 = ilog2 q2) by lia.
      destruct (ilog2_spec q2 H2) as [Hl _]. rewrite <- He2 in Hl.
      assert (Hq : (inject_Z (2 ^ 52) <= q2 * pow2 (52 - e2))%Q).
      { rewrite <- (pow2_Z 52) by lia.
        rewrite <- (pow2_sub_add 52 (52 - e2)).
        replace (52 - (52 - e2)) with e2 by lia.
        apply Qmult_le_compat_r; [assumption | apply Qlt_le_weak, pow2_pos]. }
      apply round_half_even_mono in Hq. rewrite round_half_even_Z in Hq.
      rewrite <- (pow2_sub_add e2 (e2 - 52)) at 1.
      replace (e2 - (e2 - 52)) with 52 by lia.
      apply Qmult_le_compat_r; [|apply Qlt_le_weak, pow2_pos].
      rewrite (pow2_Z 52) by lia. now rewrite <- Zle_Qle.
Qed.

Lemma nearest_positive (q : Q) :
  (0 < q)%Q -> (q <= 1)%Q ->
  (nearest q == round_positive (Qred q))%Q.
Proof.
  intros Hpos Hle. destruct (binary64_unit q Hpos Hle) as (f & Hf & _).
  unfold nearest. rewrite Hf. unfold binary64 in Hf.
  assert (Hpos0 : (0 < Qred q)%Q) by now rewrite Qred_correct.
  destruct (Qeq_bool (Qred q) 0) eqn:Hz.
  - apply Qeq_bool_iff in Hz. rewrite Hz in Hpos0. discriminate.
  - rewrite (Qabs_pos_eq _ Hpos0) in Hf.
    destruct (Qle_bool (pow2 1024) _); [discriminate|].
    assert (Hs : Qle_bool 0 (Qred q) = true)
      by (apply Qle_bool_iff; now apply Qlt_le_weak).
    rewrite Hs in Hf. injection Hf as <-. apply Qred_correct.
Qed.

(** Rounding keeps the order of the quotients of [[0, 1]]. *)
Lemma nearest_mono (q1 q2 : Q) :
  (0 <= q1)%Q -> (q1 <= q2)%Q -> (q2 <= 1)%Q ->
  (nearest q1 <= nearest q2)%Q.
Proof.
  intros H0 H12 H1.
  destruct (Qlt_le_dec 0 q1) as [Hpos|Hneg].
  - rewrite !nearest_positive by lra.
    apply round_positive_mono; rewrite !Qred_correct; assumption.
  - assert (Hq : (q1 == 0)%Q) by now apply Qle_antisym.
    unfold nearest at 1. rewrite (binary64_zero q1 Hq).
    apply nearest_unit; lra.
Qed.

Lemma rounded_frequencies_descending (counter : Counter) :
  Forall (fun x => 0 <= snd x) counter ->
  0 < sum (Dict.values counter) ->
  descending (rounded (frequencies counter)).
Proof.
  intros Hpos Ht. unfold descending, rounded, frequencies.
  rewrite map_map. cbn [fst snd].
  apply (StronglySorted_map
           (fun x => (fst x,
                      nearest (Qred (inject_Z (snd x)
                                     / inject_Z
                                         (sum (Dict.values counter))))))
           (fun x y => (snd y <= snd x)%Q)).
  eapply StronglySorted_weaken;
    [|apply (proj1 (proj2 (stable_sort_of_items counter)))].
  intros x y Hx Hy Hle. cbn [snd] in *. rewrite !nearest_Qred.
  pose proof (counter_counts_bound counter x Hpos Hx).
  pose proof (counter_counts_bound counter y Hpos Hy).
  assert (Hq : (0 < inject_Z (sum (Dict.values counter)))%Q)
    by (change 0%Q with (inject_Z 0); now rewrite <- Zlt_Qlt).
  apply nearest_mono.
  - apply quotient_unit; lia.
  - unfold Qdiv. apply Qmult_le_compat_r.
    + now rewrite <- Zle_Qle.
    + apply Qinv_le_0_compat. now apply Qlt_le_weak.
  - apply quotient_unit; lia.
Qed.

Lemma frequencies_unit (counter : Counter) :
  Forall (fun x => 0 <= snd x) counter ->
  0 < sum (Dict.values counter) ->
  Forall (fun x => (0 <= snd x)%Q /\ (snd x <= 1)%Q) (frequencies counter).
Proof.
  intros Hpos Ht. unfold frequencies. rewrite Forall_forall.
  intros [c p] Hin. apply in_map_iff in Hin as ([c' k] & [= <- <-] & Hin).
  apply (Permutation_in _ (sorted_desc_Permutation _)) in Hin.
  assert (Hk : 0 <= k <= sum (Dict.values counter)).
  { apply sum_nonneg_bound.
    - unfold Dict.values. rewrite Forall_forall in *. intros x Hx.
      apply in_map_iff in Hx as (y & <- & Hy). now apply Hpos.
    - unfold Dict.values. change k with (snd (c', k)). now apply in_map. }
  cbn [snd]. rewrite Qred_correct. now apply quotient_unit.
Qed.

Lemma frequencies_exact_sum (counter : Counter) :
  sum (Dict.values counter) <> 0 ->
  (Qsum (map snd (frequencies counter)) == 1)%Q.
Proof.
  intros Hnz. unfold frequencies. rewrite map_map. cbn [snd].
  rewrite Qsum_quotients.
  rewrite (sum_Permutation _ (Dict.values counter))
    by (apply Permutation_map, sorted_desc_Permutation).
  unfold Qdiv. now apply Qmult_inv_r, inject_Z_nonzero.
Qed.

Lemma rounded_near_1 (d : Distribution) :
  Forall (fun x => (0 <= snd x)%Q /\ (snd x <= 1)%Q) d ->
  (Qsum (map snd d) == 1)%Q ->
  (Qabs (Qsum (map snd (rounded d)) - 1)
   <= inject_Z (Z.of_nat (List.length d)) * (1 # 2 ^ 53))%Q.
Proof.
  intros Hd Hs. rewrite <- Hs. now apply rounded_sum.
Qed.

Lemma comprehension_cases {A B : Type} (f : A -> result B) (g : A -> B)
      (e : exn) (l : list A) :
  (forall x, In x l -> f x = Ok (g x) \/ f x = Raise e) ->
  comprehension f l = Ok (map g l) \/ comprehension f l = Raise e.
Proof.
  induction l as [|x l IH]; intros H; [now left|]. simpl.
  destruct (H x (or_introl eq_refl)) as [-> | ->]; [|now right]. simpl.
  destruct IH as [-> | ->]; [intros y Hy; apply H; now right | |];
    [now left | now right].
Qed.

Lemma all_ascii (c : ascii) : In c (map ascii_of_nat (seq 0 256)).
Proof.
  apply in_map_iff. exists (nat_of_ascii c).
  split; [apply ascii_nat_embedding|].
  apply in_seq. pose proof (nat_ascii_bounded c). lia.
Qed.

Lemma NoDup_ascii_length (l : list ascii) :
  NoDup l -> (List.length l <= 256)%nat.
Proof.
  intros Hnd.
  replace 256%nat with (List.length (map ascii_of_nat (seq 0 256)))
    by (now rewrite length_map, length_seq).
  apply NoDup_incl_length; [assumption|]. intros c _. apply all_ascii.
Qed.

Lemma counter_of_nonneg (cs : list ascii) :
  Forall (fun x => 0 <= snd x) (counter_of cs).
Proof.
  rewrite Forall_forall. intros [c k] Hin.
  apply In_counter_of in Hin as [-> _]. simpl. lia.
Qed.

Lemma dict_comprehension_float_Ok (items : list (string * Counter))
      (lm : Model) :
  NoDup (Dict.keys lm ++ Dict.keys items)%list ->
  (forall h counter, In (h, counter) items ->
                     Forall (fun x => 0 <= snd x) counter
                     /\ 0 < sum (Dict.values counter)) ->
  dict_comprehension_float items lm
  = Ok (lm ++ map (fun x => (fst x, rounded (frequencies (snd x))))
                  items)%list.
Proof.
  revert lm. induction items as [|[h counter] items IH]; intros lm Hnd Hc.
  - simpl. now rewrite app_nil_r.
  - simpl. destruct (Hc h counter (or_introl eq_refl)) as [Hpos Ht].
    rewrite normalize_float_Ok by assumption. simpl.
    assert (Hnin : ~ In h (Dict.keys lm)).
    { intros Hin. simpl in Hnd. apply NoDup_remove_2 in Hnd.
      apply Hnd. apply in_or_app. now left. }
    apply (DictFacts.get_None _ String.eqb_spec) in Hnin.
    rewrite (DictFacts.set_absent _ String.eqb_spec _ _ _ Hnin).
    rewrite IH.
    + now rewrite <- app_assoc.
    + unfold Dict.keys in *. rewrite map_app. simpl in *.
      now rewrite <- app_assoc.
    + intros h' c' Hin. apply (Hc h'). now right.
Qed.

(** The stored model is the exact one with every quotient rounded. *)
Lemma train_lm_float_closed_form (text : string) (n : Z) :
  train_lm_float text n
  = Ok (map (fun x => (fst x, rounded (frequencies (snd x))))
            (raw_of (observations n "~" (list_ascii_of_string text)))).
Proof.
  unfold train_lm_float, train_loop, Dict.items.
  rewrite train_loop_raw. fold (raw_of (observations n "~"
                                          (list_ascii_of_string text))).
  rewrite dict_comprehension_float_Ok; [reflexivity| |].
  - simpl. apply NoDup_raw_of.
  - intros h counter Hin. pose proof (raw_of_total _ _ _ Hin) as Ht.
    apply In_raw_of in Hin as [-> _].
    split; [apply counter_of_nonneg | lia].
Qed.

(** The two embeddings of [train_lm] agree up to rounding: the stored
    model is the exact one with every quotient replaced by the nearest
    binary64 number. *)
Lemma train_lm_float_rounds (text : string) (n : Z) :
  exists lm,
    train_lm text n = Ok lm
    /\ train_lm_float text n
       = Ok (map (fun x => (fst x, rounded (snd x))) lm).
Proof.
  eexists. split; [apply train_lm_closed_form|].
  rewrite train_lm_float_closed_form, map_map. reflexivity.
Qed.

Lemma get_train_lm_float (text : string) (n : Z) (lm : Model) (h : string)
      (dist : Distribution) :
  train_lm_float text n = Ok lm ->
  Dict.get String.eqb lm h = Some dist ->
  after text n h <> []
  /\ dist = rounded (frequencies (counter_of (after text n h))).
Proof.
  rewrite train_lm_float_closed_form. intros [= <-].
  rewrite (DictFacts.get_map
             _ String.eqb_spec (fun c => rounded (frequencies c))),
    get_raw_of.
  unfold after.
  destruct (followers h _) eqn:Hf; simpl; [discriminate|].
  intros [= <-]. split; [discriminate | reflexivity].
Qed.

Lemma length_list_ascii_of_string (s : string) :
  List.length (list_ascii_of_string s) = String.length s.
Proof. induction s as [|c s IH]; simpl; [reflexivity | now rewrite IH]. Qed.

Lemma observations_length (n : Z) (text : list ascii) (history : string) :
  List.length (observations n history text) = List.length text.
Proof.
  revert history. induction text as [|c text IH]; intros history;
    [reflexivity|]. simpl. now rewrite IH.
Qed.

Lemma after_length (text : string) (n : Z) (h : string) :
  (List.length (after text n h) <= String.length text)%nat.
Proof.
  unfold after, followers. rewrite length_map.
  rewrite <- length_list_ascii_of_string,
    <- (observations_length n (list_ascii_of_string text) "~").
  apply filter_length_le.
Qed.

Lemma map_fst_rounded (d : Distribution) :
  map fst (rounded d) = map fst d.
Proof. unfold rounded. now rewrite map_map. Qed.

Lemma rounded_frequencies_sorted (cs : list ascii) :
  cs <> [] ->
  total_of cs < 2 ^ 52 ->
  StronglySorted (precedes cs) (rounded (frequencies (counter_of cs))).
Proof.
  intros Hne Hlt. pose proof (total_pos cs Hne) as Hpos.
  rewrite frequencies_counter_of. unfold rounded. rewrite map_map.
  apply (StronglySorted_map
           (fun x => (fst x,
                      nearest (Qred (inject_Z (snd x)
                                     / inject_Z (total_of cs)))))).
  eapply StronglySorted_weaken; [|apply most_common_counter_of].
  intros [c1 k1] [c2 k2] H1 H2 Hp.
  apply (Permutation_in _ (most_common_Permutation cs)) in H1, H2.
  apply In_counter_of in H1 as [-> _], H2 as [-> _].
  assert (Hb : forall c, Z.of_nat (occurrences c cs) <= total_of cs)
    by (intros c; unfold total_of, occurrences;
        pose proof (count_occ_bound ascii_dec c cs); lia).
  unfold precedes, precedes_count in *. cbn [fst snd] in *.
  rewrite !nearest_Qred. destruct Hp as [Hlt'|[Heq Hrank]].
  - left. apply nearest_quotient_lt; try assumption; [lia | apply Hb].
  - right. rewrite Heq. split; [reflexivity | assumption].
Qed.

(** ** The stored frequencies on concrete inputs *)

(** Three equal counts: each stored frequency is the binary64 number
    nearest to 1/3, and the three add up to [1 - 2^-54]. *)
Example train_lm_float_thirds :
  train_lm_float "xaxbxc" 2
  = Ok [("~", [("x"%char, 1%Q)]);
        ("x", [("a"%char, (6004799503160661 # 18014398509481984)%Q);
               ("b"%char, (6004799503160661 # 18014398509481984)%Q);
               ("c"%char, (6004799503160661 # 18014398509481984)%Q)]);
        ("a", [("x"%char, 1%Q)]);
        ("b", [("x"%char, 1%Q)])].
Proof. vm_compute. reflexivity. Qed.

(** A quotient too large for a float. *)
Example normalize_float_overflow :
  normalize_float [("a"%char, 2 ^ 1024); ("b"%char, 1 - 2 ^ 1024)]
  = Raise OverflowError.
Proof. vm_compute. reflexivity. Qed.

(** With a negative count the stored frequencies need not add up to 1. *)
Example normalize_float_cancellation :
  normalize_float [("a"%char, 2 ^ 60 + 1); ("b"%char, - 2 ^ 60)]
  = Ok [("a"%char, inject_Z (2 ^ 60)); ("b"%char, inject_Z (- 2 ^ 60))].
Proof. vm_compute. reflexivity. Qed.

(** * The claims *)

(** C1.  The docstring of [train_lm] documents
    [train_lm("cacao", 3)] as
    [{'ac': [('a', 1.0)], 'ca': [('c', 0.5), ('o', 0.5)],
      '~c': [('a', 1.0)], '~~': [('c', 1.0)]}].
    The code returns another model: its window starts as ["~"], one
    character long, so the contexts are ["~"], ["c"] and ["a"], and none of
    the four documented contexts is a key. *)
Theorem cacao_model_differs :
  exists lm,
    train_lm "cacao" 3 = Ok lm
    /\ lm = [("~", [("c"%char, 1%Q)]);
             ("c", [("a"%char, 1%Q)]);
             ("a", [("c"%char, (1#2)%Q); ("o"%char, (1#2)%Q)])]
    /\ Dict.get String.eqb lm "ac" = None
    /\ Dict.get String.eqb lm "ca" = None
    /\ Dict.get String.eqb lm "~c" = None
    /\ Dict.get String.eqb lm "~~" = None.
Proof. eexists. repeat split. Qed.

(** C2.  The docstring of [train_lm] documents the keys of the model as
    strings of length [n-1], and the window as padded with tildes.  The
    code starts the window as ["~"] whatever [n] is: for ["cacao"] and
    [n = 3] the keys are ["~"], ["c"], ["a"], all of length 1 and none of
    length [n-1 = 2]. *)
Theorem cacao_keys_have_length_1 :
  exists lm,
    train_lm "cacao" 3 = Ok lm
    /\ snd (train_loop EmptyString 3) = "~"
    /\ Dict.keys lm = ["~"; "c"; "a"]
    /\ Forall (fun h => String.length h = 1%nat) (Dict.keys lm)
    /\ Forall (fun h => String.length h <> Z.to_nat (3 - 1)) (Dict.keys lm).
Proof.
  eexists. split; [reflexivity|]. split; [reflexivity|].
  split; [reflexivity|].
  split; repeat constructor; vm_compute; intros H; discriminate H.
Qed.



Lemma uniform_half : uniform (fun _ => (1 # 2)%Q).
Proof. intros k. split; [apply Qle_bool_iff|]; reflexivity. Defined.

Lemma well_formed_single :
  well_formed [("~", [("a"%char, 1%Q)])].
Proof.
  intros h d. unfold Dict.get. destruct (String.eqb "~" h); [|discriminate].
  intros [= <-]. split; [discriminate|]. split.
  - constructor; [apply Qle_bool_iff; reflexivity | constructor].
  - apply Qle_bool_iff. reflexivity.
Defined.


(** C4, as stated, fails: [train_lm] does not look at [n] before the
    loop, and [train_lm("a", 0)] returns a model. *)
Lemma train_lm_n_0_returns :
  train_lm "a" 0 = Ok [("~", [("a"%char, 1%Q)])]
  /\ ~ (exists e, train_lm "a" 0 = Raise e).
Proof.
  split; [reflexivity|]. intros [e He].
  change (train_lm "a" 0)
    with (@Ok Model [("~", [("a"%char, 1%Q)])]) in He.
  discriminate.
Qed.

(** C4, amended.  For every text and every [n < 1], [train_lm] raises
    nothing and returns a model: [n] is not validated, it is only compared
    with 1 in the window update, and the model is the one returned for
    [n = 2]. *)
Theorem train_lm_no_validation (text : string) (n : Z) :
  n < 1 ->
  exists lm, train_lm text n = Ok lm /\ train_lm text 2 = Ok lm.
Proof.
  intros _. rewrite !train_lm_closed_form.
  rewrite (observations_any_n n 2) by reflexivity. eauto.
Qed.

Lemma train_lm_no_validation_witness :
  -1 < 1
  /\ exists lm, train_lm "cacao" (-1) = Ok lm /\ train_lm "cacao" 2 = Ok lm.
Proof.
  split; [lia|]. apply (train_lm_no_validation "cacao" (-1)). lia.
Defined.

(** C5.  In a trained model, as Python stores it, the distribution [dist]
    under a context [h] describes the characters [cs] that follow [h] in
    the text ([cs] is not empty): its probabilities add up to 1 within
    [2^-45]; the probability of a listed character is its number of
    occurrences in [cs] divided by the length of [cs], rounded to
    binary64; the listed characters are exactly those of [cs], each listed
    once; the probabilities never increase along the list; and, for a text
    of fewer than [2^52] characters, where different counts are stored as
    different probabilities, pairs of equal probability come in the order
    in which their characters were first met after [h]. *)
Theorem trained_distribution_float (text : string) (n : Z) (lm : Model)
        (h : string) (dist : Distribution) :
  train_lm_float text n = Ok lm ->
  Dict.get String.eqb lm h = Some dist ->
  let cs := after text n h in
  cs <> []
  /\ (Qabs (Qsum (map snd dist) - 1) <= 1 # 2 ^ 45)%Q
  /\ (forall c p, In (c, p) dist ->
        binary64 (inject_Z (Z.of_nat (occurrences c cs))
                  / inject_Z (Z.of_nat (List.length cs))) = Some p)
  /\ (forall c, In c (map fst dist) <-> In c cs)
  /\ NoDup (map fst dist)
  /\ descending dist
  /\ (Z.of_nat (String.length text) < 2 ^ 52 ->
      StronglySorted (precedes cs) dist).
Proof.
  intros Ht Hg cs. destruct (get_train_lm_float _ _ _ _ _ Ht Hg) as [Hne ->].
  fold cs in Hne |- *. pose proof (total_pos cs Hne) as Hpos.
  assert (Hnz : sum (Dict.values (counter_of cs)) <> 0)
    by (rewrite sum_values_counter_of; unfold total_of in Hpos; lia).
  assert (Hsum : 0 < sum (Dict.values (counter_of cs))).
  { rewrite sum_values_counter_of. exact Hpos. }
  split; [assumption|]. split; [|split; [|split; [|split; [|split]]]].
  - eapply Qle_trans.
    + apply rounded_near_1.
      * apply frequencies_unit; [apply counter_of_nonneg | assumption].
      * now apply frequencies_exact_sum.
    + rewrite frequencies_length.
      assert (Hlen : (List.length (counter_of cs) <= 256)%nat).
      { rewrite <- (length_map fst). apply NoDup_ascii_length.
        apply NoDup_counter_of. }
      apply Qle_trans with (inject_Z 256 * (1 # 2 ^ 53))%Q.
      * apply Qmult_le_compat_r; [|vm_compute; discriminate].
        rewrite <- Zle_Qle. lia.
      * vm_compute. discriminate.
  - intros c p Hin. unfold rounded in Hin.
    apply in_map_iff in Hin as ([c' q] & [= <- <-] & Hin).
    apply frequencies_In in Hin as [-> Hc]. cbn [snd].
    rewrite nearest_Qred. apply nearest_unit; apply quotient_unit;
      try assumption;
      (split; [lia|]); unfold total_of, occurrences;
      pose proof (count_occ_bound ascii_dec c' cs); lia.
  - intros c. rewrite map_fst_rounded, <- (keys_counter_of cs c).
    pose proof (frequencies_keys cs) as Hp.
    split; intros Hin.
    + now apply (Permutation_in _ Hp).
    + now apply (Permutation_in _ (Permutation_sym Hp)).
  - rewrite map_fst_rounded.
    apply (Permutation_NoDup (Permutation_sym (frequencies_keys cs))).
    apply NoDup_counter_of.
  - apply rounded_frequencies_descending;
      [apply counter_of_nonneg | assumption].
  - intros Hlen. apply rounded_frequencies_sorted; [assumption|].
    unfold total_of. pose proof (after_length text n h). fold cs in H. lia.
Qed.

Lemma trained_distribution_float_witness :
  train_lm_float "xaxbxc" 2
  = Ok [("~", [("x"%char, 1%Q)]);
        ("x", [("a"%char, (6004799503160661 # 18014398509481984)%Q);
               ("b"%char, (6004799503160661 # 18014398509481984)%Q);
               ("c"%char, (6004799503160661 # 18014398509481984)%Q)]);
        ("a", [("x"%char, 1%Q)]);
        ("b", [("x"%char, 1%Q)])]
  /\ (Qabs (Qsum [(6004799503160661 # 18014398509481984)%Q;
                  (6004799503160661 # 18014398509481984)%Q;
                  (6004799503160661 # 18014398509481984)%Q] - 1)
      <= 1 # 2 ^ 45)%Q
  /\ StronglySorted
       (precedes (after "xaxbxc" 2 "x"))
       [("a"%char, (6004799503160661 # 18014398509481984)%Q);
        ("b"%char, (6004799503160661 # 18014398509481984)%Q);
        ("c"%char, (6004799503160661 # 18014398509481984)%Q)].
Proof.
  assert (Ht : train_lm_float "xaxbxc" 2
               = Ok [("~", [("x"%char, 1%Q)]);
                     ("x", [("a"%char,
                             (6004799503160661 # 18014398509481984)%Q);
                            ("b"%char,
                             (6004799503160661 # 18014398509481984)%Q);
                            ("c"%char,
                             (6004799503160661 # 18014398509481984)%Q)]);
                     ("a", [("x"%char, 1%Q)]);
                     ("b", [("x"%char, 1%Q)])])
    by (vm_compute; reflexivity).
  destruct (trained_distribution_float "xaxbxc" 2 _ "x" _ Ht eq_refl)
    as (_ & Hsum & _ & _ & _ & _ & Hsorted).
  split; [exact Ht|]. split; [exact Hsum|].
  apply Hsorted. reflexivity.
Defined.

(** C6.  When [history] is not a key of the model, [generate_letter]
    returns the sentinel ["~"], whatever the samples of the generator are,
    and leaves the generator in the state it found it in: no sample is
    drawn. *)
Theorem generate_letter_miss (random_sample : nat -> Q) (lm : Model)
        (history : string) (s : rng) :
  ~ In history (Dict.keys lm) ->
  generate_letter random_sample lm history s = Ok ("~"%char, s).
Proof.
  intros Hnin. apply (DictFacts.get_None _ String.eqb_spec) in Hnin.
  unfold generate_letter, Dict.contains. now rewrite Hnin.
Qed.

Lemma generate_letter_miss_witness :
  ~ In "zz" (Dict.keys [("~", [("a"%char, 1%Q)])])
  /\ generate_letter (fun _ => (1 # 2)%Q) [("~", [("a"%char, 1%Q)])] "zz"
       7%nat
     = Ok ("~"%char, 7%nat).
Proof.
  assert (H : ~ In "zz" (Dict.keys [("~", [("a"%char, 1%Q)])]))
    by (simpl; intros [H|[]]; discriminate H).
  split; [exact H|].
  exact (generate_letter_miss (fun _ => (1 # 2)%Q)
           [("~", [("a"%char, 1%Q)])] "zz" 7%nat H).
Defined.

(** C8.  For every [n >= 1], training on the empty text raises nothing and
    returns the empty model. *)
Theorem train_lm_empty_text (n : Z) :
  1 <= n -> train_lm EmptyString n = Ok [].
Proof. intros _. reflexivity. Qed.

Lemma train_lm_empty_text_witness :
  1 <= 3 /\ train_lm EmptyString 3 = Ok [].
Proof.
  split; [lia|]. apply (train_lm_empty_text 3). lia.
Defined.



(** C10.  For every text and every [n >= 1], every counter of the raw
    model has a total of at least 1, so that [normalize] returns its
    frequencies without dividing by zero, and [train_lm] returns a
    model. *)
Theorem normalize_total_in_train_lm (text : string) (n : Z) :
  1 <= n ->
  Forall (fun item =>
            1 <= sum (Dict.values (snd item))
            /\ normalize (snd item) = Ok (frequencies (snd item)))
         (Dict.items (fst (train_loop text n)))
  /\ exists lm, train_lm text n = Ok lm.
Proof.
  intros _. split.
  - unfold train_loop, Dict.items. rewrite train_loop_raw.
    fold (raw_of (observations n "~" (list_ascii_of_string text))).
    rewrite Forall_forall. intros [h counter] Hin.
    apply raw_of_total in Hin. simpl.
    split; [assumption | apply normalize_Ok; lia].
  - rewrite train_lm_closed_form. eauto.
Qed.

Lemma normalize_total_in_train_lm_witness :
  1 <= 3
  /\ Forall (fun item =>
               1 <= sum (Dict.values (snd item))
               /\ normalize (snd item) = Ok (frequencies (snd item)))
            (Dict.items (fst (train_loop "cacao" 3)))
  /\ exists lm, train_lm "cacao" 3 = Ok lm.
Proof.
  split; [lia|]. apply (normalize_total_in_train_lm "cacao" 3). lia.
Defined.

(** * Further properties *)

(** ** [unzip] and [normalize] *)

Lemma combine_columns {A B : Type} (pairs : list (A * B)) :
  combine (map fst pairs) (map snd pairs) = pairs.
Proof.
  induction pairs as [|[a b] pairs IH]; simpl; [reflexivity|].
  now rewrite IH.
Qed.

(** X1.  [unzip] returns the empty tuple on an empty list, and on any other
    list the two columns: each as long as the list, and zipping them back
    gives the list. *)
Theorem unzip_zip {A B : Type} (pairs : list (A * B)) :
  match unzip pairs with
  | None => pairs = []
  | Some (xs, ys) =>
      pairs <> []
      /\ List.length xs = List.length pairs
      /\ List.length ys = List.length pairs
      /\ combine xs ys = pairs
  end.
Proof.
  destruct pairs as [|p pairs]; [reflexivity|].
  unfold unzip. rewrite !length_map, combine_columns.
  repeat split. discriminate.
Qed.

Lemma quotient_le (a b t : Z) :
  0 < t -> a <= b ->
  (Qred (inject_Z a / inject_Z t) <= Qred (inject_Z b / inject_Z t))%Q.
Proof.
  intros Ht Hab. rewrite !Qred_correct. unfold Qdiv.
  apply Qmult_le_compat_r.
  - now rewrite <- Zle_Qle.
  - apply Qinv_le_0_compat. change 0%Q with (inject_Z 0).
    rewrite <- Zle_Qle. lia.
Qed.

Lemma filter_map_commute {A B : Type} (f : A -> B) (g : B -> bool)
      (l : list A) :
  filter g (map f l) = map f (filter (fun x => g (f x)) l).
Proof.
  induction l as [|x l IH]; simpl; [reflexivity|].
  destruct (g (f x)); simpl; now rewrite IH.
Qed.

Lemma nonneg_a1_b3 :
  Forall (fun x => 0 <= snd x) [("a"%char, 1); ("b"%char, 3)].
Proof. repeat constructor; discriminate. Defined.

Lemma nonneg_x1_y2_z1 :
  Forall (fun x => 0 <= snd x) [("x"%char, 1); ("y"%char, 2); ("z"%char, 1)].
Proof. repeat constructor; discriminate. Defined.

(** X2.  [normalize], with the division of Python, returns the empty list
    on the empty counter; on any other counter it raises
    [ZeroDivisionError] exactly when the counts add up to zero, and
    otherwise either returns one pair per key of the counter or raises
    [OverflowError]; it raises nothing else. *)
Theorem normalize_float_error (counter : Counter) :
  match normalize_float counter with
  | Ok dist =>
      (counter = [] \/ sum (Dict.values counter) <> 0)
      /\ List.length dist = List.length counter
  | Raise e =>
      counter <> []
      /\ ((e = ZeroDivisionError /\ sum (Dict.values counter) = 0)
          \/ (e = OverflowError /\ sum (Dict.values counter) <> 0))
  end.
Proof.
  destruct counter as [|[c k] counter]; [simpl; auto|].
  set (cnt := (c, k) :: counter).
  assert (Hne : cnt <> []) by discriminate.
  assert (Hlen : List.length (most_common cnt) = List.length cnt)
    by apply Permutation_length, sorted_desc_Permutation.
  unfold normalize_float.
  destruct (Z.eq_dec (sum (Dict.values cnt)) 0) as [Hz|Hnz].
  - rewrite Hz. destruct (most_common cnt) as [|[c' k'] l];
      [discriminate|]. simpl. auto.
  - destruct (comprehension_cases
                (fun '(char, cnt0) =>
                   (f <- truediv_float cnt0 (sum (Dict.values cnt)) ;;
                    Ok (char, f))%result)
                (fun x => (fst x,
                           nearest (inject_Z (snd x)
                                    / inject_Z (sum (Dict.values cnt)))))
                OverflowError (most_common cnt)) as [-> | ->].
    + intros [c' k'] _. unfold truediv_float, nearest.
      destruct (Z.eqb_spec (sum (Dict.values cnt)) 0); [contradiction|].
      destruct (binary64 _); simpl; auto.
    + split; [now right|]. now rewrite length_map.
    + split; [assumption|]. now right.
Qed.

(** X3.  On a counter without negative counts and with a positive total,
    [normalize] raises nothing and the frequencies it stores add up to 1
    within [2^-53] times the number of keys. *)
Theorem normalize_float_sum (counter : Counter) :
  Forall (fun x => 0 <= snd x) counter ->
  0 < sum (Dict.values counter) ->
  exists dist,
    normalize_float counter = Ok dist
    /\ (Qabs (Qsum (map snd dist) - 1)
        <= inject_Z (Z.of_nat (List.length counter)) * (1 # 2 ^ 53))%Q.
Proof.
  intros Hpos Ht. exists (rounded (frequencies counter)).
  split; [now apply normalize_float_Ok|].
  rewrite <- frequencies_length. apply rounded_near_1.
  - now apply frequencies_unit.
  - apply frequencies_exact_sum. lia.
Qed.

Lemma normalize_float_sum_witness :
  Forall (fun x => 0 <= snd x) [("a"%char, 1); ("b"%char, 3)]
  /\ 0 < sum (Dict.values [("a"%char, 1); ("b"%char, 3)])
  /\ exists dist,
      normalize_float [("a"%char, 1); ("b"%char, 3)] = Ok dist
      /\ (Qabs (Qsum (map snd dist) - 1)
          <= inject_Z (Z.of_nat 2) * (1 # 2 ^ 53))%Q.
Proof.
  split; [exact nonneg_a1_b3|]. split; [reflexivity|].
  exact (normalize_float_sum [("a"%char, 1); ("b"%char, 3)]
           nonneg_a1_b3 eq_refl).
Defined.

(** X4.  On a counter without negative counts and with a positive total,
    [normalize] lists the keys of the counter in the order of
    [most_common], each with its count divided by the total and rounded to
    binary64, and the stored frequencies never increase along the list. *)
Theorem normalize_float_descending (counter : Counter) :
  Forall (fun x => 0 <= snd x) counter ->
  0 < sum (Dict.values counter) ->
  exists dist,
    normalize_float counter = Ok dist
    /\ map fst dist = map fst (most_common counter)
    /\ Forall2 (fun x y =>
                  binary64 (inject_Z (snd x)
                            / inject_Z (sum (Dict.values counter)))
                  = Some (snd y))
               (most_common counter) dist
    /\ descending dist.
Proof.
  intros Hpos Ht. exists (rounded (frequencies counter)).
  split; [now apply normalize_float_Ok|].
  split; [|split; [|now apply rounded_frequencies_descending]].
  - unfold rounded, frequencies. now rewrite !map_map.
  - unfold rounded, frequencies. rewrite !map_map. cbn [fst snd].
    assert (Hall : forall x, In x (most_common counter) ->
                             0 <= snd x <= sum (Dict.values counter))
      by (intros x; now apply counter_counts_bound).
    induction (most_common counter) as [|x l IH]; simpl; constructor.
    + cbn [snd]. rewrite nearest_Qred.
      apply nearest_unit; apply quotient_unit; try assumption;
        apply Hall; now left.
    + apply IH. intros y Hy. apply Hall. now right.
Qed.

Lemma normalize_float_descending_witness :
  Forall (fun x => 0 <= snd x) [("a"%char, 1); ("b"%char, 3)]
  /\ 0 < sum (Dict.values [("a"%char, 1); ("b"%char, 3)])
  /\ exists dist,
      normalize_float [("a"%char, 1); ("b"%char, 3)] = Ok dist
      /\ map fst dist = map fst (most_common [("a"%char, 1); ("b"%char, 3)])
      /\ descending dist.
Proof.
  split; [exact nonneg_a1_b3|]. split; [reflexivity|].
  destruct (normalize_float_descending [("a"%char, 1); ("b"%char, 3)]
              nonneg_a1_b3 eq_refl) as (dist & Hn & Hk & _ & Hd).
  exists dist. split; [exact Hn|]. split; [exact Hk | exact Hd].
Defined.

Lemma nearest_quotient_eqb (a k t : Z) :
  0 <= a <= t -> 0 <= k <= t -> t < 2 ^ 52 ->
  Qeq_bool (nearest (Qred (inject_Z a / inject_Z t)))
           (nearest (inject_Z k / inject_Z t))
  = (a =? k).
Proof.
  intros Ha Hk Ht. rewrite nearest_Qred.
  destruct (Z.eqb_spec a k) as [->|Hne].
  - apply Qeq_bool_iff. reflexivity.
  - destruct (Qeq_bool _ _) eqn:Hb; [|reflexivity].
    apply Qeq_bool_iff in Hb. exfalso.
    destruct (Z.lt_total a k) as [Hlt|[Heq|Hgt]]; [|contradiction|].
    + apply (Qlt_irrefl (nearest (inject_Z k / inject_Z t))).
      rewrite <- Hb at 1. apply nearest_quotient_lt; lia.
    + apply (Qlt_irrefl (nearest (inject_Z k / inject_Z t))).
      rewrite <- Hb at 2. apply nearest_quotient_lt; lia.
Qed.

(** X5.  [normalize] breaks ties by the order of the counter: on a counter
    without negative counts and with a positive total below [2^52], the
    characters it lists with the stored frequency of a count [k] are the
    keys of the counter that have the count [k], in the order they have in
    the counter. *)
Theorem normalize_float_ties (counter : Counter) (k : Z) :
  Forall (fun x => 0 <= snd x) counter ->
  0 < sum (Dict.values counter) < 2 ^ 52 ->
  0 <= k <= sum (Dict.values counter) ->
  exists dist,
    normalize_float counter = Ok dist
    /\ map fst
         (filter (fun y =>
                    Qeq_bool (snd y)
                             (nearest
                                (inject_Z k
                                 / inject_Z (sum (Dict.values counter)))))
                 dist)
       = map fst (filter (fun x => snd x =? k) counter).
Proof.
  intros Hpos [Ht Hlt] Hk. exists (rounded (frequencies counter)).
  split; [now apply normalize_float_Ok|].
  unfold rounded, frequencies. rewrite map_map.
  rewrite filter_map_commute, map_map. cbn [fst snd].
  rewrite (filter_ext_in _ (fun x => snd x =? k)).
  - now rewrite (proj2 (proj2 (stable_sort_of_items counter)) k).
  - intros x Hx. apply nearest_quotient_eqb; try assumption.
    now apply counter_counts_bound.
Qed.

Lemma normalize_float_ties_witness :
  Forall (fun x => 0 <= snd x) [("x"%char, 1); ("y"%char, 2); ("z"%char, 1)]
  /\ 0 < sum (Dict.values [("x"%char, 1); ("y"%char, 2); ("z"%char, 1)])
     < 2 ^ 52
  /\ 0 <= 1 <= sum (Dict.values [("x"%char, 1); ("y"%char, 2); ("z"%char, 1)])
  /\ exists dist,
      normalize_float [("x"%char, 1); ("y"%char, 2); ("z"%char, 1)] = Ok dist
      /\ map fst
           (filter (fun y =>
                      Qeq_bool (snd y)
                        (nearest
                           (inject_Z 1
                            / inject_Z (sum (Dict.values
                                               [("x"%char, 1); ("y"%char, 2);
                                                ("z"%char, 1)])))))
                   dist)
         = ["x"%char; "z"%char].
Proof.
  assert (Ht : 0 < sum (Dict.values
                          [("x"%char, 1); ("y"%char, 2); ("z"%char, 1)])
               < 2 ^ 52) by (split; reflexivity).
  assert (Hk : 0 <= 1 <= sum (Dict.values
                                [("x"%char, 1); ("y"%char, 2);
                                 ("z"%char, 1)]))
    by (split; discriminate).
  split; [exact nonneg_x1_y2_z1|]. split; [exact Ht|]. split; [exact Hk|].
  exact (normalize_float_ties [("x"%char, 1); ("y"%char, 2); ("z"%char, 1)] 1
           nonneg_x1_y2_z1 Ht Hk).
Defined.

(** ** [train_lm] *)

(** X6.  [train_lm] makes no use of the order [n]: for every text, any two
    values of [n] give the same model. *)
Theorem train_lm_ignores_n (text : string) (n m : Z) :
  train_lm text n = train_lm text m.
Proof.
  rewrite !train_lm_closed_form.
  now rewrite (observations_any_n n m) by reflexivity.
Qed.

Lemma followers_not_nil (h : string) (obs : list (string * ascii)) :
  followers h obs <> [] <-> In h (map fst obs).
Proof.
  unfold followers. induction obs as [|[h0 c0] obs IH]; simpl.
  - split; [congruence | tauto].
  - destruct (String.eqb_spec h0 h) as [->|Hne]; simpl.
    + split; [now left | discriminate].
    + rewrite IH. split; [now right | intros [H|H]; [congruence | exact H]].
Qed.

Lemma keys_raw_of (obs : list (string * ascii)) (h : string) :
  In h (Dict.keys (raw_of obs)) <-> In h (map fst obs).
Proof.
  rewrite <- followers_not_nil. pose proof (get_raw_of obs h) as Hg.
  split.
  - intros Hin Hnil. rewrite Hnil in Hg.
    apply (DictFacts.get_None _ String.eqb_spec) in Hg. contradiction.
  - intros Hne. destruct (followers h obs); [congruence|].
    now apply (DictFacts.get_Some_key _ String.eqb_spec) in Hg.
Qed.

Lemma map_fst_combine_map {A B C : Type} (f : A -> C) (l1 : list A)
      (l2 : list B) :
  map fst (combine (map f l1) l2) = map f (map fst (combine l1 l2)).
Proof.
  revert l2. induction l1 as [|a l1 IH]; intros [|b l2]; simpl;
    try reflexivity.
  now rewrite IH.
Qed.

Lemma contexts_of_text (n : Z) (text : list ascii) :
  map fst (observations n "~" text) = map str (map fst (bigrams text)).
Proof.
  change "~" with (str "~"%char).
  rewrite observations_previous_char. apply map_fst_combine_map.
Qed.

(** X7.  The keys of a trained model are pairwise distinct, and they are
    the sentinel and the characters of the text that have a successor:
    [h] is a key exactly when it is the one-character string of the first
    component of a bigram of the text. *)
Theorem train_lm_keys (text : string) (n : Z) :
  exists lm,
    train_lm text n = Ok lm
    /\ NoDup (Dict.keys lm)
    /\ forall h,
        In h (Dict.keys lm) <->
        exists c, h = str c
                  /\ In c (map fst (bigrams (list_ascii_of_string text))).
Proof.
  eexists. split; [apply train_lm_closed_form|].
  rewrite DictFacts.keys_map. split; [apply NoDup_raw_of|].
  intros h. rewrite keys_raw_of, contexts_of_text, in_map_iff.
  split; intros (c & Hc & Hin); exists c; split; auto.
Qed.

Lemma followers_cons (h h0 : string) (c0 : ascii)
      (obs : list (string * ascii)) :
  followers h ((h0, c0) :: obs)
  = if String.eqb h0 h then c0 :: followers h obs else followers h obs.
Proof. unfold followers. simpl. now destruct (String.eqb h0 h). Qed.

Lemma followers_other_contexts (h : string) (l1 l2 : list ascii) :
  (forall x, In x l1 -> str x <> h) ->
  followers h (combine (map str l1) l2) = [].
Proof.
  intros Hne.
  destruct (followers h (combine (map str l1) l2)) as [|c l] eqn:Hf;
    [reflexivity|].
  assert (Hin : In h (map fst (combine (map str l1) l2)))
    by (apply followers_not_nil; rewrite Hf; discriminate).
  rewrite map_fst_combine_map in Hin.
  apply in_map_iff in Hin as (x & Hx & Hin).
  apply in_map_iff in Hin as ([a b] & <- & Hin).
  apply in_combine_l in Hin. now apply Hne in Hin.
Qed.

(** X8.  When the sentinel does not occur in a non-empty text, the
    sentinel context of the trained model holds the first character of the
    text and nothing else, with probability 1. *)
Theorem sentinel_context (c : ascii) (rest : string) (n : Z) :
  ~ In "~"%char (list_ascii_of_string (String c rest)) ->
  exists lm,
    train_lm (String c rest) n = Ok lm
    /\ Dict.get String.eqb lm "~" = Some [(c, 1%Q)].
Proof.
  intros Hnin. eexists. split; [apply train_lm_closed_form|].
  rewrite (DictFacts.get_map _ String.eqb_spec), get_raw_of.
  assert (Hf : followers "~" (observations n "~"
                                (list_ascii_of_string (String c rest)))
               = [c]).
  { pose proof (observations_previous_char
                  n (list_ascii_of_string (String c rest)) "~"%char) as Ho.
    change (str "~"%char) with "~" in Ho. rewrite Ho.
    simpl list_ascii_of_string.
    change (combine (map str ("~"%char :: c :: list_ascii_of_string rest))
                    (c :: list_ascii_of_string rest))
      with ((str "~"%char, c)
              :: combine (map str (c :: list_ascii_of_string rest))
                         (list_ascii_of_string rest)).
    rewrite followers_cons. change (String.eqb (str "~"%char) "~") with true.
    cbv iota. f_equal. apply followers_other_contexts.
    intros x Hx [= ->]. now apply Hnin. }
  rewrite Hf. reflexivity.
Qed.

Lemma sentinel_context_witness :
  ~ In "~"%char (list_ascii_of_string "cacao")
  /\ exists lm,
      train_lm "cacao" 3 = Ok lm
      /\ Dict.get String.eqb lm "~" = Some [("c"%char, 1%Q)].
Proof.
  assert (H : ~ In "~"%char (list_ascii_of_string "cacao"))
    by (simpl; intros [H|[H|[H|[H|[H|[]]]]]]; discriminate H).
  split; [exact H|]. exact (sentinel_context "c" "acao" 3 H).
Defined.



(** ** [generate_letter] and [generate_text] *)

Lemma np_random_choice_inv (random_sample : nat -> Q) (a : list ascii)
      (p : list Q) (s s' : rng) (x : ascii) :
  np_random_choice random_sample a p s = Ok (x, s') ->
  s' = S s /\ In x a.
Proof.
  unfold np_random_choice.
  destruct (List.length a =? 0)%nat; [discriminate|].
  destruct (negb (List.length p =? List.length a)%nat); [discriminate|].
  destruct (existsb _ p); [discriminate|].
  destruct (negb _); [discriminate|].
  destruct (nth_error a _) as [y|] eqn:Hn; [|discriminate].
  intros [= <- <-]. split; [reflexivity|]. eapply nth_error_In, Hn.
Qed.

Lemma generate_letter_inv (random_sample : nat -> Q) (lm : Model)
      (history : string) (s s' : rng) (c : ascii) :
  generate_letter random_sample lm history s = Ok (c, s') ->
  follows lm history c /\ (s <= s' <= S s)%nat.
Proof.
  unfold generate_letter, follows, Dict.contains, bind, getitem.
  destruct (Dict.get String.eqb lm history) as [d|]; cbn [negb].
  - unfold ret at 1, unzip. destruct d as [|x d]; [discriminate|].
    destruct (np_random_choice _ _ _ s) as [[i s1]|] eqn:Hc; [|discriminate].
    intros [= <- <-]. apply np_random_choice_inv in Hc as [-> Hin].
    split; [assumption | lia].
  - intros [= <- <-]. split; [reflexivity | lia].
Qed.

Lemma last_snoc_cons {A : Type} (c : A) (new : list A) (d : A) :
  last (c :: new) d = last new c.
Proof.
  revert c d. induction new as [|x new IH]; intros c d; [reflexivity|].
  change (last (c :: x :: new) d) with (last (x :: new) d).
  now rewrite !IH.
Qed.

(** What the loop of [generate_text] keeps, from a window that holds one
    character: the window is always the character emitted last, the
    output is a walk in the model, and at most one sample is drawn per
    character. *)
Lemma for_range_walk (random_sample : nat -> Q) (lm : Model) (n : Z)
      (k : nat) (c0 : ascii) (text : list ascii) (s : rng)
      (st' : string * list ascii) (s' : rng) :
  for_range k (generate_body random_sample lm n) (str c0, text) s
  = Ok (st', s') ->
  exists new,
    st' = (str (last new c0), (text ++ new)%list)
    /\ List.length new = k
    /\ walk lm (str c0) new
    /\ (s <= s' <= s + k)%nat.
Proof.
  revert c0 text s. induction k as [|k IH]; intros c0 text s.
  - intros [= <- <-]. exists []. rewrite app_nil_r.
    repeat split; simpl; lia.
  - rewrite for_range_S.
    destruct (generate_body random_sample lm n (str c0, text) s)
      as [[st1 s1]|] eqn:Hb; [|discriminate].
    unfold generate_body, bind in Hb.
    destruct (generate_letter random_sample lm (str c0) s)
      as [[c s2]|] eqn:Hl; [|discriminate].
    injection Hb as <- <-. rewrite slide_eq by reflexivity.
    intros Hrun. apply IH in Hrun as (new & -> & Hlen & Hw & Hs).
    apply generate_letter_inv in Hl as [Hf Hs2].
    exists (c :: new). rewrite last_snoc_cons, <- app_assoc.
    repeat split; simpl; try assumption; lia.
Qed.

Lemma generate_body_any_n (random_sample : nat -> Q) (lm : Model)
      (n m : Z) (k : nat) (c0 : ascii) (text : list ascii) (s : rng) :
  for_range k (generate_body random_sample lm n) (str c0, text) s
  = for_range k (generate_body random_sample lm m) (str c0, text) s.
Proof.
  revert c0 text s. induction k as [|k IH]; intros c0 text s;
    [reflexivity|].
  rewrite !for_range_S. unfold generate_body at 1 3. unfold bind.
  destruct (generate_letter random_sample lm (str c0) s) as [[c s1]|];
    [|reflexivity].
  unfold ret. rewrite !slide_eq by reflexivity. apply IH.
Qed.

(** X10.  [generate_text] makes no use of the order [n] either: for every
    model, sample stream and length, any two values of [n] give the same
    result. *)
Theorem generate_text_ignores_n (random_sample : nat -> Q) (lm : Model)
        (n m nletters : Z) (s : rng) :
  generate_text random_sample lm n nletters s
  = generate_text random_sample lm m nletters s.
Proof.
  unfold generate_text, generate_loop, bind.
  change "~" with (str "~"%char).
  now rewrite (generate_body_any_n random_sample lm n m).
Qed.



Lemma for_range_all_sentinels (random_sample : nat -> Q) (lm : Model)
      (n : Z) (k : nat) (text : list ascii) (s : rng) :
  ~ In "~" (Dict.keys lm) ->
  for_range k (generate_body random_sample lm n) ("~", text) s
  = Ok (("~", (text ++ repeat "~"%char k)%list), s).
Proof.
  intros Hnin. apply (DictFacts.get_None _ String.eqb_spec) in Hnin.
  revert text. induction k as [|k IH]; intros text.
  - simpl. now rewrite app_nil_r.
  - rewrite for_range_S.
    assert (Hl : generate_letter random_sample lm "~" s = Ok ("~"%char, s))
      by (unfold generate_letter, Dict.contains; now rewrite Hnin).
    rewrite (generate_body_Ok _ _ _ _ _ _ _ _ Hl).
    change "~" with (str "~"%char) at 1.
    rewrite slide_eq by reflexivity. change (str "~"%char) with "~".
    rewrite IH, <- app_assoc. reflexivity.
Qed.

(** X12.  When the sentinel context is no key of the model, as in the
    empty model, [generate_text] returns [nletters] sentinels joined by
    spaces whatever the samples are, and draws no sample. *)
Theorem generate_text_without_sentinel_key (random_sample : nat -> Q)
        (lm : Model) (n nletters : Z) (s : rng) :
  ~ In "~" (Dict.keys lm) ->
  generate_text random_sample lm n nletters s
  = Ok (join " " (map str (repeat "~"%char (Z.to_nat nletters))), s).
Proof.
  intros Hnin. unfold generate_text, generate_loop, bind.
  now rewrite for_range_all_sentinels.
Qed.

Lemma generate_text_without_sentinel_key_witness :
  ~ In "~" (Dict.keys (@nil (string * Distribution)))
  /\ generate_text (fun _ => 5%Q) [] 1 3 4%nat = Ok ("~ ~ ~", 4%nat).
Proof.
  assert (H : ~ In "~" (Dict.keys (@nil (string * Distribution))))
    by (intros []).
  split; [exact H|].
  exact (generate_text_without_sentinel_key (fun _ => 5%Q) [] 1 3 4%nat H).
Defined.

(** ** Training, then generating *)

Lemma In_followers (h : string) (c : ascii) (obs : list (string * ascii)) :
  In c (followers h obs) <-> In (h, c) obs.
Proof.
  unfold followers. rewrite in_map_iff. split.
  - intros ([h0 c0] & Hc & Hin). simpl in Hc. subst c0.
    apply filter_In in Hin as [Hin Heq]. simpl in Heq.
    apply String.eqb_eq in Heq. now subst h0.
  - intros Hin. exists (h, c). split; [reflexivity|].
    apply filter_In. split; [assumption|]. simpl. apply String.eqb_refl.
Qed.

Lemma In_combine_str (a b : ascii) (l1 l2 : list ascii) :
  In (str a, b) (combine (map str l1) l2) -> In (a, b) (combine l1 l2).
Proof.
  revert l2. induction l1 as [|x l1 IH]; intros [|y l2]; simpl; try tauto.
  intros [[= -> ->]|Hin]; [now left | right; now apply IH].
Qed.

Lemma follows_trained (text : string) (n : Z) (lm : Model)
      (prev c : ascii) :
  train_lm text n = Ok lm ->
  follows lm (str prev) c ->
  In (prev, c) (bigrams (list_ascii_of_string text))
  \/ (c = "~"%char
      /\ ~ In prev (map fst (bigrams (list_ascii_of_string text)))).
Proof.
  intros Ht Hf. unfold follows in Hf.
  destruct (Dict.get String.eqb lm (str prev)) as [d|] eqn:Hg.
  - left. destruct (get_train_lm _ _ _ _ _ Ht Hg) as [Hne ->].
    apply (Permutation_in _ (frequencies_keys _)) in Hf.
    apply (proj1 (keys_counter_of _ _)) in Hf. unfold after in Hf.
    apply (proj1 (In_followers _ _ _)) in Hf.
    change "~" with (str "~"%char) in Hf.
    rewrite observations_previous_char in Hf.
    now apply In_combine_str in Hf.
  - right. split; [assumption|]. intros Hin.
    rewrite train_lm_closed_form in Ht. injection Ht as <-.
    rewrite (DictFacts.get_map _ String.eqb_spec) in Hg.
    destruct (Dict.get String.eqb _ (str prev)) eqn:Hr; [discriminate|].
    apply (DictFacts.get_None _ String.eqb_spec) in Hr. apply Hr.
    apply keys_raw_of. rewrite contexts_of_text. now apply in_map.
Qed.

Lemma walk_trained (text : string) (n : Z) (lm : Model) (out : list ascii)
      (prev : ascii) :
  train_lm text n = Ok lm ->
  walk lm (str prev) out ->
  walk_in (list_ascii_of_string text) prev out.
Proof.
  intros Ht. revert prev. induction out as [|c out IH]; intros prev;
    [trivial|].
  intros [Hf Hw]. split; [now apply (follows_trained text n lm) | now apply IH].
Qed.



(** ** [tokenize_without_stopwords] *)

Lemma lower_char_idempotent (c : ascii) :
  lower_char (lower_char c) = lower_char c.
Proof. destruct c as [[] [] [] [] [] [] [] []]; reflexivity. Qed.

Lemma lower_char_punctuation (c : ascii) :
  is_punctuation (lower_char c) = is_punctuation c.
Proof. destruct c as [[] [] [] [] [] [] [] []]; reflexivity. Qed.

Lemma split_from_chars (P : ascii -> Prop) (s word : list ascii) :
  Forall P word -> Forall P s ->
  Forall (fun w => Forall P (list_ascii_of_string w)) (split_from word s).
Proof.
  revert word. induction s as [|c s IH]; intros word Hw Hs; simpl.
  - destruct word; constructor; [|constructor].
    now rewrite list_ascii_of_string_of_list_ascii.
  - inversion Hs; subst. destruct (is_space c).
    + destruct word as [|x word].
      * apply IH; [constructor | assumption].
      * constructor; [now rewrite list_ascii_of_string_of_list_ascii|].
        apply IH; [constructor | assumption].
    + apply IH; [|assumption]. apply Forall_app. split; [assumption|].
      now constructor.
Qed.

Lemma split_from_words (s word : list ascii) :
  Forall (fun c => is_space c = false) word ->
  Forall (fun w => w <> EmptyString
                   /\ Forall (fun c => is_space c = false)
                             (list_ascii_of_string w))
         (split_from word s).
Proof.
  revert word. induction s as [|c s IH]; intros word Hw; simpl.
  - destruct word; constructor; [|constructor].
    split; [discriminate|].
    now rewrite list_ascii_of_string_of_list_ascii.
  - destruct (is_space c) eqn:Hc.
    + destruct word as [|x word].
      * apply IH. constructor.
      * constructor; [|apply IH; constructor].
        split; [discriminate|].
        now rewrite list_ascii_of_string_of_list_ascii.
    + apply IH. apply Forall_app. split; [assumption|]. now constructor.
Qed.

Lemma split_from_concat (s word : list ascii) :
  List.concat (map list_ascii_of_string (split_from word s))
  = (word ++ filter (fun c => negb (is_space c)) s)%list.
Proof.
  revert word. induction s as [|c s IH]; intros word; simpl.
  - destruct word; simpl; [reflexivity|].
    now rewrite list_ascii_of_string_of_list_ascii, !app_nil_r.
  - destruct (is_space c); simpl.
    + destruct word as [|x word]; [apply (IH [])|].
      cbn [map List.concat]. rewrite (IH []).
      now rewrite list_ascii_of_string_of_list_ascii.
    + rewrite IH, <- app_assoc. reflexivity.
Qed.

Lemma prepared_chars (lyrics : string) :
  list_ascii_of_string (lower (remove_punctuation lyrics))
  = map lower_char
        (filter (fun c => negb (is_punctuation c))
                (list_ascii_of_string lyrics)).
Proof.
  unfold lower, remove_punctuation.
  now rewrite !list_ascii_of_string_of_list_ascii.
Qed.

Lemma clean_tokens (lyrics : string) :
  Forall (fun w =>
            w <> EmptyString
            /\ Forall (fun c => is_space c = false
                                /\ is_punctuation c = false
                                /\ lower_char c = c
                                /\ c <> "~"%char)
                      (list_ascii_of_string w))
         (tokenize_without_stopwords lyrics).
Proof.
  unfold tokenize_without_stopwords, split.
  pose proof (split_from_words
                (list_ascii_of_string (lower (remove_punctuation lyrics)))
                [] (Forall_nil _)) as Hwords.
  assert (Hchars :
            Forall (fun w => Forall (fun c => is_punctuation c = false
                                              /\ lower_char c = c)
                                    (list_ascii_of_string w))
                   (split_from []
                      (list_ascii_of_string
                         (lower (remove_punctuation lyrics))))).
  { apply split_from_chars; [constructor|].
    rewrite prepared_chars, Forall_forall. intros c Hc.
    apply in_map_iff in Hc as (c' & <- & Hc').
    apply filter_In in Hc' as [_ Hp].
    rewrite lower_char_punctuation, lower_char_idempotent.
    split; [|reflexivity]. now destruct (is_punctuation c'). }
  rewrite Forall_forall in *. intros w Hw.
  destruct (Hwords w Hw) as [Hne Hsp]. specialize (Hchars w Hw).
  split; [assumption|]. rewrite Forall_forall in *. intros c Hc.
  destruct (Hchars c Hc) as [Hp Hl].
  repeat split; auto. intros ->. discriminate Hp.
Qed.

(** X15.  Every token that [tokenize_without_stopwords] returns is a
    non-empty word without whitespace, without punctuation and without
    capital letters ([lower] leaves it as it is); in particular no token
    contains the sentinel ["~"] of the language model. *)
Theorem tokens_are_clean (lyrics : string) :
  Forall (fun w =>
            w <> EmptyString
            /\ Forall (fun c => is_space c = false
                                /\ is_punctuation c = false
                                /\ lower_char c = c
                                /\ c <> "~"%char)
                      (list_ascii_of_string w))
         (tokenize_without_stopwords lyrics).
Proof. exact (clean_tokens lyrics). Qed.

(** X16.  Tokenizing loses nothing but punctuation and whitespace, and
    keeps the order: the characters of the tokens, read in a row, are the
    characters of the text that are no punctuation, lowered, without the
    whitespace. *)
Theorem tokens_content (lyrics : string) :
  List.concat (map list_ascii_of_string (tokenize_without_stopwords lyrics))
  = filter (fun c => negb (is_space c))
           (map lower_char
                (filter (fun c => negb (is_punctuation c))
                        (list_ascii_of_string lyrics))).
Proof.
  unfold tokenize_without_stopwords, split.
  now rewrite split_from_concat, prepared_chars.
Qed.

Lemma list_ascii_of_string_app (a b : string) :
  list_ascii_of_string (a ++ b)
  = (list_ascii_of_string a ++ list_ascii_of_string b)%list.
Proof.
  induction a as [|c a IH]; simpl; [reflexivity|]. now rewrite IH.
Qed.

Lemma split_from_word (w s word : list ascii) :
  Forall (fun c => is_space c = false) w ->
  split_from word (w ++ s)%list = split_from (word ++ w)%list s.
Proof.
  intros Hw. revert word. induction Hw as [|c w Hc Hw IH]; intros word.
  - now rewrite app_nil_r.
  - simpl. rewrite Hc, IH, <- app_assoc. reflexivity.
Qed.

Lemma split_join (ws : list string) :
  Forall (fun w => w <> EmptyString
                   /\ Forall (fun c => is_space c = false)
                             (list_ascii_of_string w)) ws ->
  split (join " " ws) = ws.
Proof.
  unfold split. induction 1 as [|w ws [Hne Hsp] Hws IH]; [reflexivity|].
  assert (Hw : exists x l, list_ascii_of_string w = x :: l).
  { destruct w as [|x w]; [congruence|]. simpl. eauto. }
  destruct Hw as (x & l & Hl).
  destruct ws as [|w2 ws].
  - simpl join. rewrite <- (app_nil_r (list_ascii_of_string w)).
    rewrite split_from_word by assumption. simpl app. rewrite Hl. simpl.
    change (String x (string_of_list_ascii l))
      with (string_of_list_ascii (x :: l)).
    now rewrite <- Hl, string_of_list_ascii_of_string.
  - change (join " " (w :: w2 :: ws))
      with (w ++ String " " (join " " (w2 :: ws))).
    rewrite list_ascii_of_string_app, split_from_word by assumption.
    simpl app. rewrite Hl.
    change (list_ascii_of_string (String " " (join " " (w2 :: ws))))
      with (" "%char :: list_ascii_of_string (join " " (w2 :: ws))).
    cbn [split_from]. change (is_space " ") with true. cbv iota.
    rewrite IH. rewrite <- Hl, string_of_list_ascii_of_string. reflexivity.
Qed.

Lemma join_chars_Forall (P : ascii -> Prop) (ws : list string) :
  P " "%char ->
  Forall (fun w => Forall P (list_ascii_of_string w)) ws ->
  Forall P (list_ascii_of_string (join " " ws)).
Proof.
  intros Hsp. induction 1 as [|w ws Hw Hws IH]; [constructor|].
  destruct ws as [|w2 ws]; [assumption|].
  change (join " " (w :: w2 :: ws))
    with (w ++ String " " (join " " (w2 :: ws))).
  rewrite list_ascii_of_string_app. apply Forall_app. split; [assumption|].
  now constructor.
Qed.

Lemma prepared_clean (s : string) :
  Forall (fun c => is_punctuation c = false /\ lower_char c = c)
         (list_ascii_of_string s) ->
  lower (remove_punctuation s) = s.
Proof.
  intros Hall. rewrite <- (string_of_list_ascii_of_string s) at 2.
  rewrite <- (string_of_list_ascii_of_string (lower _)), prepared_chars.
  f_equal. induction Hall as [|c l [Hp Hl] Hall IH]; [reflexivity|].
  simpl. rewrite Hp. simpl. now rewrite Hl, IH.
Qed.

(** X17.  Tokenizing is idempotent through [" ".join]: the tokens of a
    text, joined by single spaces as [generate_text] joins its output and
    tokenized again, are the same tokens. *)
Theorem tokenize_join_tokenize (lyrics : string) :
  tokenize_without_stopwords (join " " (tokenize_without_stopwords lyrics))
  = tokenize_without_stopwords lyrics.
Proof.
  pose proof (clean_tokens lyrics) as Hclean.
  set (ws := tokenize_without_stopwords lyrics) in *.
  unfold tokenize_without_stopwords at 1.
  rewrite prepared_clean.
  - apply split_join. eapply Forall_impl; [|exact Hclean].
    intros w [Hne Hc]. split; [assumption|].
    eapply Forall_impl; [|exact Hc]. now intros c [Hs _].
  - apply join_chars_Forall; [split; reflexivity|].
    eapply Forall_impl; [|exact Hclean]. intros w [_ Hc].
    eapply Forall_impl; [|exact Hc]. now intros c (_ & Hp & Hl & _).
Qed.

(** ** A text made of one character *)

Lemma walk_in_repeat (c : ascii) (k : nat) (out : list ascii) (prev : ascii) :
  (2 <= k)%nat ->
  prev = "~"%char \/ prev = c ->
  walk_in (repeat c k) prev out ->
  out = repeat c (List.length out).
Proof.
  intros Hk. revert prev. induction out as [|x out IH]; intros prev Hprev;
    [reflexivity|].
  intros [Hstep Hw].
  assert (Hx : x = c).
  { destruct Hstep as [Hin|[_ Hnin]].
    - apply in_combine_r in Hin. now apply repeat_spec in Hin.
    - exfalso. apply Hnin.
      destruct k as [|[|k]]; [lia | lia |].
      destruct Hprev as [->| ->]; simpl; auto. }
  subst x. simpl. f_equal. apply (IH c); [now right | assumption].
Qed.


